(** * HHL: pre-processing, circuit composition and result extraction

    A shallow embedding of [qiskit/aqua/algorithms/single_sample/hhl/hhl.py]
    and the properties of it that the specification states.

    Definitions:
    - [Arrays]    numpy arrays as the code uses them: a 1-D array is a list,
                  a 2-D array carries its column count and its rows.
    - [Gauss]     complex128 entries, idealised as complex numbers with
                  rational parts (no rounding).
    - [Pre]       [HHL.init_params]: validation, Hermitian expansion,
                  resizing, re-validation.
    - [Configure] [HHL.init_params] to its end: the three pluggable engines
                  are looked up and initialised.
    - [Compose]   [HHL.construct_circuit] over the three pluggable engines.
    - [ComposeNamed] the same with the names of the registers, those that
                  Qiskit generates among them.
    - [Tomo]      the count loops of [HHL._state_tomography] and
                  [HHL._tomo_postselect] over a store of result objects.
    - [Rescale]   [HHL._hhl_results] and [HHL._statevector_simulation] over
                  uninterpreted numpy operations.

    Facts, one module per module of definitions: [ArraysFacts],
    [GaussFacts], [PreFacts], [ConfigureFacts], [ComposeFacts],
    [ComposeNamedFacts], [TomoFacts], [RescaleFacts]. *)

From Stdlib Require Import List ZArith QArith Lqa Lia String Ascii Bool Arith.
From Stdlib Require Import DecimalString.
From stdpp Require Import base gmap strings list fin_maps.
Import ListNotations.

Set Implicit Arguments.

(** ** Exceptions

    The four [ValueError]s of [init_params] are told apart by their message;
    they carry the names the specification gives them. *)

Inductive error : Type :=
| MissingInput        (* AquaError("LinearSystemInput instance is required.") *)
| DimensionMismatch   (* "Input vector dimension does not match input matrix dimension!" *)
| NonSquareMatrix     (* "Input matrix must be square!" *)
| NotHermitian        (* "Input matrix is not hermitian!" *)
| InvalidDimension    (* "Matrix dimension must be 2**n!" *)
| OverflowError       (* int(float('-inf')) *)
| BroadcastError      (* numpy: could not broadcast input array *)
| ShapeError          (* numpy: shapes not aligned *)
| IndexError          (* string or list index out of range *)
| KeyError            (* dict key not present *)
| Unallocated         (* a reference outside the store: not a Python object *)
| AttributeError      (* an attribute read before it was set *)
| PluggableError      (* raised while a pluggable is looked up or initialised *)
| ZeroDivisionError.

Inductive res (A : Type) : Type :=
| Ok (a : A)
| Raise (e : error).
Arguments Ok {A} a.
Arguments Raise {A} e.

Definition rbind {A B} (m : res A) (k : A -> res B) : res B :=
  match m with
  | Ok a => k a
  | Raise e => Raise e
  end.

Declare Scope res_scope.
Delimit Scope res_scope with res.
Notation "'let*' x ':=' m 'in' k" := (rbind m (fun x => k))
  (at level 10, x pattern, m at level 100, k at level 200) : res_scope.
Open Scope res_scope.

(** [for x in xs: body] over a threaded state, stopping at the first raise. *)
Fixpoint for_each {A S} (xs : list A) (body : A -> S -> res S) (s : S) : res S :=
  match xs with
  | [] => Ok s
  | x :: xs' => let* s' := body x s in for_each xs' body s'
  end.

(** ** numpy arrays *)

Class Zero (C : Type) := zero : C.

Module Arrays.
Section Arrays.
Context {C : Type} {ZC : Zero C}.

(** A 2-D array: [shape1] is [a.shape[1]], [a.shape[0]] is the number of
    rows.  A well-formed array has [shape1] entries in every row. *)
Record ndarray : Type := NdArray { shape1 : nat; rows : list (list C) }.

Definition shape0 (a : ndarray) : nat := length (rows a).

Definition wf (a : ndarray) : Prop :=
  Forall (fun r => length r = shape1 a) (rows a).

Definition square (n : nat) (a : ndarray) : Prop :=
  shape0 a = n /\ shape1 a = n /\ wf a.

(** [a[i, j]]; out of range reads give [zero] and are never relied on. *)
Definition entry (a : ndarray) (i j : nat) : C :=
  nth j (nth i (rows a) []) zero.

Definition tabulate (n : nat) (f : nat -> C) : list C := map f (seq 0 n).

Definition mk_matrix (r c : nat) (f : nat -> nat -> C) : ndarray :=
  NdArray c (map (fun i => tabulate c (f i)) (seq 0 r)).

(** [dst[r0:r1, c0:c1] = src], for [src] of shape [(r1-r0, c1-c0)]. *)
Definition set_block (dst : ndarray) (r0 r1 c0 c1 : nat) (src : ndarray) : ndarray :=
  mk_matrix (shape0 dst) (shape1 dst) (fun i j =>
    if (r0 <=? i) && (i <? r1) && (c0 <=? j) && (j <? c1)
    then entry src (i - r0) (j - c0)
    else entry dst i j).

(** [dst[a:b] = src] on a 1-D array, for [src] of length [b-a]. *)
Definition set_slice (dst : list C) (a b : nat) (src : list C) : list C :=
  tabulate (length dst) (fun i =>
    if (a <=? i) && (i <? b) then nth (i - a) src zero else nth i dst zero).

(** [a[r0:r1, c0:c1]], for bounds within the array *)
Definition block (a : ndarray) (r0 r1 c0 c1 : nat) : ndarray :=
  mk_matrix (r1 - r0) (c1 - c0) (fun i j => entry a (r0 + i) (c0 + j)).

(** [a[:n, :m]] *)
Definition slice2 (a : ndarray) (n m : nat) : ndarray :=
  NdArray (Nat.min m (shape1 a)) (map (firstn m) (firstn n (rows a))).

End Arrays.
Arguments ndarray C : clear implicits.
End Arrays.
Import Arrays.

(** ** Array entries

    A complex128 entry is idealised as a complex number with rational real
    and imaginary parts: arithmetic is exact, no rounding is modelled. *)

Module Gauss.
Local Open Scope Q_scope.

Record complex : Type := Cx { re : Q; im : Q }.

#[global] Instance complex_zero : Zero complex := Cx 0 0.

Definition one : complex := Cx 1 0.
Definition j : complex := Cx 0 1.

(** [z.conj()] *)
Definition conj (z : complex) : complex := Cx (re z) (- im z).

(** Storing a complex value into a float64 array keeps the real part only
    (numpy warns with ComplexWarning and discards the imaginary part). *)
Definition to_float (z : complex) : complex := Cx (re z) 0.

Definition csub (a b : complex) : complex := Cx (re a - re b) (im a - im b).

(** [|z|**2] *)
Definition cabs2 (z : complex) : Q := re z * re z + im z * im z.

Definition atol : Q := 1 # 100000000.   (* numpy default 1e-08 *)
Definition rtol : Q := 1 # 100000.      (* numpy default 1e-05 *)

(** [np.isclose(a, b)]: [|a - b| <= atol + rtol * |b|].  With
    [x = |a-b|**2] and [y = |b|**2] the test reads
    [sqrt x <= atol + rtol * sqrt y], that is
    [x - atol**2 - rtol**2 * y <= 2 * atol * rtol * sqrt y],
    which is decided on rationals by squaring when the left side is
    positive. *)
Definition isclose (a b : complex) : bool :=
  let x := cabs2 (csub a b) in
  let y := cabs2 b in
  let t := x - atol * atol - rtol * rtol * y in
  Qle_bool t 0 || Qle_bool (t * t) (4 * atol * atol * rtol * rtol * y).

End Gauss.
Import Gauss.

(** ** Pre-processing: [HHL.init_params] *)

Module Pre.
(** [LinearSystemInput] *)
Record LinearSystemInput : Type :=
  { matrix : ndarray complex; vector : list complex }.

(** The fields of the [HHL] instance that [init_params] computes itself;
    the three pluggable engines it instantiates afterwards (lines 207-226)
    read [matrix] and [vector] and do not change them. *)
Record HHL : Type :=
  { _matrix : ndarray complex;
    _vector : list complex;
    _auto_hermitian : bool;
    _auto_resize : bool;
    _original_dimension : nat }.

(** [np.matrix(m).H] *)
Definition H (m : ndarray complex) : ndarray complex :=
  mk_matrix (shape1 m) (shape0 m) (fun i k => conj (entry m k i)).

(** [np.allclose(a, b)] for arrays of one shape *)
Definition allclose (a b : ndarray complex) : bool :=
  forallb (fun i =>
    forallb (fun k => isclose (entry a i k) (entry b i k)) (seq 0 (shape1 a)))
    (seq 0 (shape0 a)).

(** [np.log2(n) % 1 == 0]: [n] is a power of two.  [np.log2(0)] is [-inf]
    and [-inf % 1] is [nan], which differs from [0]. *)
Definition log2_integral (n : nat) : bool := n =? 2 ^ Nat.log2 n.

Definition zeros (r c : nat) : ndarray complex := mk_matrix r c (fun _ _ => zero).

(** [np.identity(n)] *)
Definition identity (n : nat) : ndarray complex :=
  mk_matrix n n (fun i k => if i =? k then one else zero).

(** Lines 171-182. *)
Definition expand_hermitian (matrix : ndarray complex) (vector : list complex)
  : ndarray complex * list complex :=
  let half_dim := shape0 matrix in
  let full_dim := 2 * half_dim in
  let new_matrix := zeros full_dim full_dim in
  let new_matrix := set_block new_matrix 0 half_dim half_dim full_dim matrix in
  let new_matrix := set_block new_matrix half_dim full_dim 0 half_dim (H matrix) in
  let new_vector := repeat zero full_dim in
  let new_vector := set_slice new_vector 0 (length vector) (map conj vector) in
  let new_vector := set_slice new_vector (length vector) full_dim vector in
  (new_matrix, new_vector).

(** [int(np.ceil(np.log2(n)))] *)
Definition ceil_log2 (n : nat) : res nat :=
  if n =? 0 then Raise OverflowError else Ok (Nat.log2_up n).

(** Lines 186-194.  [new_vector] is created by [np.zeros] with the default
    float64 dtype and is not converted to complex. *)
Definition resize (matrix : ndarray complex) (vector : list complex)
  : res (ndarray complex * list complex) :=
  let mat_dim := shape0 matrix in
  let* next_higher := ceil_log2 mat_dim in
  let new_matrix := identity (2 ^ next_higher) in
  let new_matrix := set_block new_matrix 0 mat_dim 0 mat_dim matrix in
  let new_vector := repeat zero (2 ^ next_higher) in
  let new_vector := set_slice new_vector 0 (length vector) (map to_float vector) in
  Ok (new_matrix, new_vector).

(** Lines 165-194: the two expansions, each behind its flag. *)
Definition expand (matrix : ndarray complex) (vector : list complex)
    (auto_hermitian auto_resize : bool) : res (ndarray complex * list complex) :=
  let is_hermitian := allclose matrix (H matrix) in
  let is_correctsize := log2_integral (shape0 matrix) in
  let '(matrix, vector) :=
    if auto_hermitian && negb is_hermitian
    then expand_hermitian matrix vector
    else (matrix, vector) in
  if auto_resize && negb is_correctsize
  then resize matrix vector
  else Ok (matrix, vector).

(** Lines 196-199. *)
Definition revalidate (matrix : ndarray complex) : res unit :=
  if negb (allclose matrix (H matrix)) then Raise NotHermitian
  else if negb (log2_integral (shape0 matrix)) then Raise InvalidDimension
  else Ok tt.

(** Lines 144-199, and of the instance of lines 228-229 the fields that
    they decide.  The look-up and initialisation of the three engines, lines
    207-226, comes after line 199 and can raise; [Configure.init_params]
    below is the function to its end. *)
Definition init_params (algo_input : option LinearSystemInput)
    (auto_hermitian auto_resize : bool) : res HHL :=
  match algo_input with
  | None => Raise MissingInput
  | Some algo_input =>
    let matrix := matrix algo_input in
    let vector := vector algo_input in
    if negb (shape0 matrix =? length vector) then Raise DimensionMismatch
    else if negb (shape0 matrix =? shape1 matrix) then Raise NonSquareMatrix
    else
      let orig_size := length vector in
      let* (matrix, vector) := expand matrix vector auto_hermitian auto_resize in
      let* _ := revalidate matrix in
      Ok {| _matrix := matrix;
            _vector := vector;
            _auto_hermitian := auto_hermitian;
            _auto_resize := auto_resize;
            _original_dimension := orig_size |}
  end.
End Pre.

(** ** Sample inputs for [init_params] *)

Module PreInputs.
Import Pre.

Definition ci (a b : Z) : complex := Cx (inject_Z a) (inject_Z b).

(** [[0, 1], [0, 0]]: not Hermitian. *)
Definition A_nh : ndarray complex := NdArray 2 [[ci 0 0; ci 1 0]; [ci 0 0; ci 0 0]].
Definition b_nh : list complex := [ci 1 0; ci 0 0].

(** The 2x2 and 3x3 identity matrices. *)
Definition I2 : ndarray complex := NdArray 2 [[ci 1 0; ci 0 0]; [ci 0 0; ci 1 0]].
Definition I3 : ndarray complex :=
  NdArray 3 [[ci 1 0; ci 0 0; ci 0 0]; [ci 0 0; ci 1 0; ci 0 0]; [ci 0 0; ci 0 0; ci 1 0]].
Definition b_2 : list complex := [ci 1 0; ci 0 0].
Definition b_3 : list complex := [ci 1 0; ci 0 0; ci 0 0].

(** A 3-vector with an imaginary entry: [1j, 2, 0]. *)
Definition b_3j : list complex := [ci 0 1; ci 2 0; ci 0 0].

(** A 1x2 matrix. *)
Definition M_1x2 : ndarray complex := NdArray 2 [[ci 0 0; ci 0 0]].

(** A 3x3 matrix that is not Hermitian: a single 1 above the diagonal. *)
Definition A3_nh : ndarray complex :=
  NdArray 3 [[ci 0 0; ci 1 0; ci 0 0]; [ci 0 0; ci 0 0; ci 0 0]; [ci 0 0; ci 0 0; ci 0 0]].
End PreInputs.

(** ** [HHL.init_params] to its end: the pluggable engines *)

Module Configure.
Import Pre.

Section Engines.

(** The classes of the three engines are not part of this file.  Each
    engine is taken with the call that looks its class up and initialises
    it; every one of these calls may raise.  The [params] dictionary is the
    same in all of them and is left out; what lines 216-217 and 223-224
    write into it before a call is an argument of that call. *)
Variables Eigenvalues InitialState Reciprocal : Type.

(** Lines 208-210: [get_pluggable_class(EIGENVALUES, name).init_params(params, matrix)] *)
Variable eigs_init_params : ndarray complex -> res Eigenvalues.

(** Line 211: [eigs.get_register_sizes()] *)
Variable get_register_sizes : Eigenvalues -> nat * nat.

(** Lines 214-219: [num_qubits] and [state_vector] are written into
    [params], then the initial state is initialised from it. *)
Variable init_state_init_params : nat -> list complex -> res InitialState.

(** Lines 222-226: [negative_evals] and [evo_time] of [eigs] are written
    into [params], which still holds [num_qubits] and [state_vector], then
    the reciprocal is initialised from it. *)
Variable reciprocal_init_params :
  Eigenvalues -> nat -> list complex -> res Reciprocal.

(** The instance that line 228 builds. *)
Record Instance : Type :=
  { problem : HHL;
    _eigs : Eigenvalues;
    _init_state : InitialState;
    _reciprocal : Reciprocal;
    _num_q : nat;
    _num_a : nat }.

(** Lines 207-229, from the matrix and the vector that passed line 199. *)
Definition engines (h : HHL) : res Instance :=
  let* eigs := eigs_init_params (_matrix h) in
  let sizes := get_register_sizes eigs in
  let num_q := fst sizes in
  let num_a := snd sizes in
  let tmpvec := _vector h in
  let* init_state := init_state_init_params num_q tmpvec in
  let* reci := reciprocal_init_params eigs num_q tmpvec in
  Ok {| problem := h;
        _eigs := eigs;
        _init_state := init_state;
        _reciprocal := reci;
        _num_q := num_q;
        _num_a := num_a |}.

(** Lines 137-229. *)
Definition init_params (algo_input : option LinearSystemInput)
    (auto_hermitian auto_resize : bool) : res Instance :=
  let* h := Pre.init_params algo_input auto_hermitian auto_resize in
  engines h.

End Engines.

(** *** Sample engines

    An eigenvalue engine that refuses the zero matrix and otherwise keeps
    the dimension; an initial state that keeps the vector; a reciprocal that
    keeps the register size. *)

Definition is_zero (z : complex) : bool :=
  Qeq_bool (re z) 0 && Qeq_bool (im z) 0.

Definition sample_eigs_init_params (m : ndarray complex) : res nat :=
  if forallb (forallb is_zero) (rows m) then Raise PluggableError else Ok (shape0 m).

Definition sample_register_sizes (dim : nat) : nat * nat := (Nat.log2 dim, 6).

Definition sample_init_state_init_params (num_q : nat) (v : list complex)
  : res (list complex) := Ok v.

Definition sample_reciprocal_init_params (dim num_q : nat) (v : list complex)
  : res nat := Ok num_q.
End Configure.

(** ** Circuit composition: [HHL.construct_circuit] *)

Module Compose.

Record QuantumRegister : Type := QReg { qsize : nat; qname : string }.

(** [ClassicalRegister(n)] by its size.  The name that Qiskit generates for
    a register created without one differs from call to call; it is carried
    in [ComposeNamed] below, where two calls are compared. *)
Record ClassicalRegister : Type := CReg { csize : nat }.

Inductive instruction : Type :=
| Gate (name : string) (params : list Z) (qubits : list (QuantumRegister * nat))
| Measure (q : QuantumRegister) (c : ClassicalRegister).

Record QuantumCircuit : Type :=
  { qregs : list QuantumRegister;
    cregs : list ClassicalRegister;
    data : list instruction }.

Definition qreg_eqb (a b : QuantumRegister) : bool :=
  (qsize a =? qsize b) && String.eqb (qname a) (qname b).

Definition creg_eqb (a b : ClassicalRegister) : bool := csize a =? csize b.

(** The registers of [new] that [old] does not have yet, in order. *)
Definition missing {A} (eqb : A -> A -> bool) (old new : list A) : list A :=
  List.filter (fun r => negb (existsb (eqb r) old)) new.

(** [QuantumCircuit(q)] *)
Definition new_circuit (q : QuantumRegister) : QuantumCircuit :=
  {| qregs := [q]; cregs := []; data := [] |}.

(** [qc += rhs]: the registers [qc] lacks are added, the instructions of
    [rhs] are appended. *)
Definition iadd (qc rhs : QuantumCircuit) : QuantumCircuit :=
  {| qregs := qregs qc ++ missing qreg_eqb (qregs qc) (qregs rhs);
     cregs := cregs qc ++ missing creg_eqb (cregs qc) (cregs rhs);
     data := data qc ++ data rhs |}.

(** [qc.add_register(c)] *)
Definition add_register (qc : QuantumCircuit) (c : ClassicalRegister) : QuantumCircuit :=
  {| qregs := qregs qc; cregs := cregs qc ++ [c]; data := data qc |}.

(** [qc.measure(s, c)] *)
Definition measure (qc : QuantumCircuit) (s : QuantumRegister) (c : ClassicalRegister)
  : QuantumCircuit :=
  {| qregs := qregs qc; cregs := cregs qc; data := data qc ++ [Measure s c] |}.

(** [obj.attr] for an attribute that is [None] until a method sets it. *)
Definition attr {A} (x : option A) : res A :=
  match x with
  | Some a => Ok a
  | None => Raise AttributeError
  end.

Section Engines.

(** The three pluggable engines are not part of this file.  Each is taken
    with the configuration it was instantiated with and with the builder the
    specification gives it: [StatePreparer.build],
    [EigenvalueEstimator.build_forward] and [build_inverse],
    [ReciprocalRotator.build]. *)
Variables InitialState Eigenvalues Reciprocal : Type.
Variable init_state_build : InitialState -> QuantumRegister -> QuantumCircuit.
Variable eigs_build_forward :
  Eigenvalues -> QuantumRegister -> QuantumCircuit * QuantumRegister.
Variable eigs_build_inverse :
  Eigenvalues -> QuantumCircuit -> QuantumRegister -> QuantumRegister -> QuantumCircuit.
Variable reciprocal_build :
  Reciprocal -> QuantumRegister -> QuantumCircuit * QuantumRegister.

(** The eigenvalue engine as an object: [construct_circuit] records the
    circuit it built and its two registers in attributes, which
    [HHL.construct_circuit] reads back. *)
Record EigsObject : Type :=
  { eigs_config : Eigenvalues;
    eigs_circuit : option QuantumCircuit;           (* ._circuit *)
    eigs_input_register : option QuantumRegister;   (* ._input_register *)
    eigs_output_register : option QuantumRegister }.  (* ._output_register *)

Record ReciprocalObject : Type :=
  { reciprocal_config : Reciprocal;
    reciprocal_anc : option QuantumRegister }.      (* ._anc *)

(** Modelled from the spec: [Eigenvalues.construct_circuit], the forward
    builder of section 6, which also sets the three attributes that lines
    250 and 257-259 read. *)
Definition eigs_construct_circuit (e : EigsObject) (q : QuantumRegister)
  : QuantumCircuit * EigsObject :=
  let built := eigs_build_forward (eigs_config e) q in
  (fst built,
   {| eigs_config := eigs_config e;
      eigs_circuit := Some (fst built);
      eigs_input_register := Some q;
      eigs_output_register := Some (snd built) |}).

(** Modelled from the spec: [Eigenvalues.construct_inverse], the inverse
    builder of section 6; it gets the forward circuit and both registers as
    arguments. *)
Definition eigs_construct_inverse (e : EigsObject) (circuit : QuantumCircuit)
    (inreg outreg : QuantumRegister) : QuantumCircuit :=
  eigs_build_inverse (eigs_config e) circuit inreg outreg.

(** Modelled from the spec: [Reciprocal.construct_circuit], the builder of
    section 6, which also sets the attribute [_anc] that line 254 reads. *)
Definition reciprocal_construct_circuit (r : ReciprocalObject) (a : QuantumRegister)
  : QuantumCircuit * ReciprocalObject :=
  let built := reciprocal_build (reciprocal_config r) a in
  (fst built,
   {| reciprocal_config := reciprocal_config r;
      reciprocal_anc := Some (snd built) |}).

(** The attributes of an [HHL] instance that [construct_circuit] reads or
    writes. *)
Record HHL : Type :=
  { _num_q : nat;
    _init_state : InitialState;
    _eigs : EigsObject;
    _reciprocal : ReciprocalObject;
    _circuit : option QuantumCircuit;
    _io_register : option QuantumRegister;
    _eigenvalue_register : option QuantumRegister;
    _ancilla_register : option QuantumRegister;
    _success_bit : option ClassicalRegister }.

(** Lines 231-272.  The result is the circuit and the instance after the
    call. *)
Definition construct_circuit (self : HHL) (measurement : bool)
  : res (QuantumCircuit * HHL) :=
  let q := QReg (_num_q self) "io" in
  let qc := new_circuit q in
  (* InitialState *)
  let qc := iadd qc (init_state_build (_init_state self) q) in
  (* EigenvalueEstimation (QPE) *)
  let built := eigs_construct_circuit (_eigs self) q in
  let qc := iadd qc (fst built) in
  let eigs := snd built in
  let* a := attr (eigs_output_register eigs) in
  (* Reciprocal calculation with rotation *)
  let built := reciprocal_construct_circuit (_reciprocal self) a in
  let qc := iadd qc (fst built) in
  let reciprocal := snd built in
  let* s := attr (reciprocal_anc reciprocal) in
  (* Inverse EigenvalueEstimation *)
  let* forward := attr (eigs_circuit eigs) in
  let* inreg := attr (eigs_input_register eigs) in
  let* outreg := attr (eigs_output_register eigs) in
  let qc := iadd qc (eigs_construct_inverse eigs forward inreg outreg) in
  (* Measurement of the ancilla qubit *)
  let c := CReg 1 in
  let qc := if measurement then measure (add_register qc c) s c else qc in
  let success_bit := if measurement then Some c else _success_bit self in
  Ok (qc,
      {| _num_q := _num_q self;
         _init_state := _init_state self;
         _eigs := eigs;
         _reciprocal := reciprocal;
         _circuit := Some qc;
         _io_register := Some q;
         _eigenvalue_register := Some a;
         _ancilla_register := Some s;
         _success_bit := success_bit |}).

(** Two instances were configured with the same inputs: the same register
    count and the same three engines.  What earlier calls recorded in them
    is arbitrary. *)
Definition same_inputs (h h' : HHL) : Prop :=
  _num_q h = _num_q h' /\
  _init_state h = _init_state h' /\
  eigs_config (_eigs h) = eigs_config (_eigs h') /\
  reciprocal_config (_reciprocal h) = reciprocal_config (_reciprocal h').

End Engines.

(** *** Sample engines: one gate each *)

Definition sample_init (b : list Z) (q : QuantumRegister) : QuantumCircuit :=
  {| qregs := [q]; cregs := []; data := [Gate "init" b [(q, 0%nat)]] |}.

Definition sample_forward (t : Z) (q : QuantumRegister) : QuantumCircuit * QuantumRegister :=
  let a := QReg 2 "a" in
  ({| qregs := [q; a]; cregs := []; data := [Gate "qpe" [t] [(a, 0%nat); (q, 0%nat)]] |}, a).

Definition sample_inverse (t : Z) (forward : QuantumCircuit) (q a : QuantumRegister)
  : QuantumCircuit :=
  {| qregs := [q; a]; cregs := [];
     data := map (fun g => match g with
                           | Gate n p qs => Gate (n ++ "_dg") p qs
                           | m => m
                           end) (rev (data forward)) |}.

Definition sample_reciprocal (scale : Z) (a : QuantumRegister) : QuantumCircuit * QuantumRegister :=
  let s := QReg 1 "anc" in
  ({| qregs := [a; s]; cregs := []; data := [Gate "rot" [scale] [(a, 0%nat); (s, 0%nat)]] |}, s).

Definition sample_hhl (stale : option QuantumCircuit) : HHL (list Z) Z Z :=
  {| _num_q := 1;
     _init_state := [1; 0]%Z;
     _eigs := {| eigs_config := 3%Z; eigs_circuit := stale;
                 eigs_input_register := None; eigs_output_register := None |};
     _reciprocal := {| reciprocal_config := 5%Z; reciprocal_anc := None |};
     _circuit := stale;
     _io_register := None;
     _eigenvalue_register := None;
     _ancilla_register := None;
     _success_bit := None |}.
End Compose.

(** ** Circuit composition with the names of the registers *)

Module ComposeNamed.

(** The name of a register.  [Register.__init__(size, name=None)] keeps the
    name it is given; without one it takes the prefix of the class, "q" for
    a quantum and "c" for a classical register, followed by the next value
    of [Register.instances_counter], a counter that all registers of the
    process share. *)
Inductive name : Type :=
| Given (s : string)
| Generated (prefix : string) (i : nat).

(** The string that Python holds: ['%s%i' % (prefix, i)] for a generated
    name. *)
Definition render (n : name) : string :=
  match n with
  | Given s => s
  | Generated prefix i => prefix ++ NilEmpty.string_of_uint (Nat.to_uint i)
  end.

(** The value of [Register.instances_counter]. *)
Definition counter : Type := nat.

Record QuantumRegister : Type := QReg { qsize : nat; qname : name }.

Record ClassicalRegister : Type := CReg { csize : nat; cname : name }.

(** [QuantumRegister(size, name=...)] *)
Definition new_qreg (size : nat) (given : option string) (n : counter)
  : QuantumRegister * counter :=
  match given with
  | Some s => (QReg size (Given s), n)
  | None => (QReg size (Generated "q" n), S n)
  end.

(** [ClassicalRegister(size, name=...)] *)
Definition new_creg (size : nat) (given : option string) (n : counter)
  : ClassicalRegister * counter :=
  match given with
  | Some s => (CReg size (Given s), n)
  | None => (CReg size (Generated "c" n), S n)
  end.

Inductive instruction : Type :=
| Gate (gate : string) (params : list Z) (qubits : list (QuantumRegister * nat))
| Measure (q : QuantumRegister) (c : ClassicalRegister).

(** The registers and the instructions of a circuit.  The circuit's own
    name is no part of its instructions and is left out. *)
Record QuantumCircuit : Type :=
  { qregs : list QuantumRegister;
    cregs : list ClassicalRegister;
    data : list instruction }.

(** Registers are compared by size and by the string of their name. *)
Definition qreg_eqb (a b : QuantumRegister) : bool :=
  (qsize a =? qsize b) && String.eqb (render (qname a)) (render (qname b)).

Definition creg_eqb (a b : ClassicalRegister) : bool :=
  (csize a =? csize b) && String.eqb (render (cname a)) (render (cname b)).

(** [QuantumCircuit(q)] *)
Definition new_circuit (q : QuantumRegister) : QuantumCircuit :=
  {| qregs := [q]; cregs := []; data := [] |}.

(** [qc += rhs]: the registers [qc] lacks are added, the instructions of
    [rhs] are appended. *)
Definition iadd (qc rhs : QuantumCircuit) : QuantumCircuit :=
  {| qregs := qregs qc ++ Compose.missing qreg_eqb (qregs qc) (qregs rhs);
     cregs := cregs qc ++ Compose.missing creg_eqb (cregs qc) (cregs rhs);
     data := data qc ++ data rhs |}.

(** [qc.add_register(c)] *)
Definition add_register (qc : QuantumCircuit) (c : ClassicalRegister) : QuantumCircuit :=
  {| qregs := qregs qc; cregs := cregs qc ++ [c]; data := data qc |}.

(** [qc.measure(s, c)] *)
Definition measure (qc : QuantumCircuit) (s : QuantumRegister) (c : ClassicalRegister)
  : QuantumCircuit :=
  {| qregs := qregs qc; cregs := cregs qc; data := data qc ++ [Measure s c] |}.

Section Engines.

(** The three pluggable engines are not part of this file.  Each is taken
    with the configuration it was instantiated with and with its builder.
    A builder may create registers without a name: it gets the counter and
    returns it. *)
Variables InitialState Eigenvalues Reciprocal : Type.
Variable init_state_build :
  InitialState -> QuantumRegister -> counter -> QuantumCircuit * counter.
Variable eigs_build_forward :
  Eigenvalues -> QuantumRegister -> counter ->
  (QuantumCircuit * QuantumRegister) * counter.
Variable eigs_build_inverse :
  Eigenvalues -> QuantumCircuit -> QuantumRegister -> QuantumRegister -> counter ->
  QuantumCircuit * counter.
Variable reciprocal_build :
  Reciprocal -> QuantumRegister -> counter ->
  (QuantumCircuit * QuantumRegister) * counter.

(** The eigenvalue engine as an object: [construct_circuit] records the
    circuit it built and its two registers in attributes, which
    [HHL.construct_circuit] reads back. *)
Record EigsObject : Type :=
  { eigs_config : Eigenvalues;
    eigs_circuit : option QuantumCircuit;           (* ._circuit *)
    eigs_input_register : option QuantumRegister;   (* ._input_register *)
    eigs_output_register : option QuantumRegister }.  (* ._output_register *)

Record ReciprocalObject : Type :=
  { reciprocal_config : Reciprocal;
    reciprocal_anc : option QuantumRegister }.      (* ._anc *)

(** Modelled from the spec: [Eigenvalues.construct_circuit], the forward
    builder of section 6, which also sets the three attributes that lines
    250 and 257-259 read. *)
Definition eigs_construct_circuit (e : EigsObject) (q : QuantumRegister) (n : counter)
  : (QuantumCircuit * EigsObject) * counter :=
  let built := eigs_build_forward (eigs_config e) q n in
  ((fst (fst built),
    {| eigs_config := eigs_config e;
       eigs_circuit := Some (fst (fst built));
       eigs_input_register := Some q;
       eigs_output_register := Some (snd (fst built)) |}),
   snd built).

(** Modelled from the spec: [Eigenvalues.construct_inverse], the inverse
    builder of section 6; it gets the forward circuit and both registers as
    arguments. *)
Definition eigs_construct_inverse (e : EigsObject) (circuit : QuantumCircuit)
    (inreg outreg : QuantumRegister) (n : counter) : QuantumCircuit * counter :=
  eigs_build_inverse (eigs_config e) circuit inreg outreg n.

(** Modelled from the spec: [Reciprocal.construct_circuit], the builder of
    section 6, which also sets the attribute [_anc] that line 254 reads. *)
Definition reciprocal_construct_circuit (r : ReciprocalObject) (a : QuantumRegister)
    (n : counter) : (QuantumCircuit * ReciprocalObject) * counter :=
  let built := reciprocal_build (reciprocal_config r) a n in
  ((fst (fst built),
    {| reciprocal_config := reciprocal_config r;
       reciprocal_anc := Some (snd (fst built)) |}),
   snd built).

(** The attributes of an [HHL] instance that [construct_circuit] reads or
    writes. *)
Record HHL : Type :=
  { _num_q : nat;
    _init_state : InitialState;
    _eigs : EigsObject;
    _reciprocal : ReciprocalObject;
    _circuit : option QuantumCircuit;
    _io_register : option QuantumRegister;
    _eigenvalue_register : option QuantumRegister;
    _ancilla_register : option QuantumRegister;
    _success_bit : option ClassicalRegister }.

(** Lines 231-272, from the value [n] of the counter.  The result is the
    circuit, the instance after the call and the counter after the call. *)
Definition construct_circuit (self : HHL) (measurement : bool) (n : counter)
  : res (QuantumCircuit * HHL * counter) :=
  let '(q, n) := new_qreg (_num_q self) (Some "io") n in
  let qc := new_circuit q in
  (* InitialState *)
  let '(built, n) := init_state_build (_init_state self) q n in
  let qc := iadd qc built in
  (* EigenvalueEstimation (QPE) *)
  let '(built, eigs, n) := eigs_construct_circuit (_eigs self) q n in
  let qc := iadd qc built in
  let* a := Compose.attr (eigs_output_register eigs) in
  (* Reciprocal calculation with rotation *)
  let '(built, reciprocal, n) := reciprocal_construct_circuit (_reciprocal self) a n in
  let qc := iadd qc built in
  let* s := Compose.attr (reciprocal_anc reciprocal) in
  (* Inverse EigenvalueEstimation *)
  let* forward := Compose.attr (eigs_circuit eigs) in
  let* inreg := Compose.attr (eigs_input_register eigs) in
  let* outreg := Compose.attr (eigs_output_register eigs) in
  let '(built, n) := eigs_construct_inverse eigs forward inreg outreg n in
  let qc := iadd qc built in
  (* Measurement of the ancilla qubit *)
  let '(qc, success_bit, n) :=
    if measurement
    then let '(c, n) := new_creg 1 None n in
         (measure (add_register qc c) s c, Some c, n)
    else (qc, _success_bit self, n) in
  Ok (qc,
      {| _num_q := _num_q self;
         _init_state := _init_state self;
         _eigs := eigs;
         _reciprocal := reciprocal;
         _circuit := Some qc;
         _io_register := Some q;
         _eigenvalue_register := Some a;
         _ancilla_register := Some s;
         _success_bit := success_bit |},
      n).

(** Two instances were configured with the same inputs: the same register
    count and the same three engines.  What earlier calls recorded in them
    is arbitrary. *)
Definition same_inputs (h h' : HHL) : Prop :=
  _num_q h = _num_q h' /\
  _init_state h = _init_state h' /\
  eigs_config (_eigs h) = eigs_config (_eigs h') /\
  reciprocal_config (_reciprocal h) = reciprocal_config (_reciprocal h').

End Engines.

(** *** Renumbering the generated names *)






(** *** Dropping the generated names *)





(** *** Builders that tell names apart only by position

    A builder called on renumbered arguments, from a counter moved up by the
    same amount, builds the renumbered circuit and leaves the counter moved
    up by that amount. *)





(** *** Sample engines: one gate each

    The forward builder creates its output register without a name; the
    other registers are named. *)

Definition sample_init (b : list Z) (q : QuantumRegister) (n : counter)
  : QuantumCircuit * counter :=
  ({| qregs := [q]; cregs := []; data := [Gate "init" b [(q, 0%nat)]] |}, n).

Definition sample_forward (t : Z) (q : QuantumRegister) (n : counter)
  : (QuantumCircuit * QuantumRegister) * counter :=
  let '(a, n) := new_qreg 2 None n in
  (({| qregs := [q; a]; cregs := [];
       data := [Gate "qpe" [t] [(a, 0%nat); (q, 0%nat)]] |}, a), n).

Definition sample_inverse (t : Z) (forward : QuantumCircuit) (q a : QuantumRegister)
    (n : counter) : QuantumCircuit * counter :=
  ({| qregs := [q; a]; cregs := [];
      data := map (fun g => match g with
                            | Gate g p qs => Gate (g ++ "_dg") p qs
                            | m => m
                            end) (rev (data forward)) |}, n).

Definition sample_reciprocal (scale : Z) (a : QuantumRegister) (n : counter)
  : (QuantumCircuit * QuantumRegister) * counter :=
  let '(s, n) := new_qreg 1 (Some "anc") n in
  (({| qregs := [a; s]; cregs := [];
       data := [Gate "rot" [scale] [(a, 0%nat); (s, 0%nat)]] |}, s), n).

Definition sample_hhl : HHL (list Z) Z Z :=
  {| _num_q := 1;
     _init_state := [1; 0]%Z;
     _eigs := {| eigs_config := 3%Z; eigs_circuit := None;
                 eigs_input_register := None; eigs_output_register := None |};
     _reciprocal := {| reciprocal_config := 5%Z; reciprocal_anc := None |};
     _circuit := None;
     _io_register := None;
     _eigenvalue_register := None;
     _ancilla_register := None;
     _success_bit := None |}.



End ComposeNamed.

(** ** Measurement counts: [_state_tomography] and [_tomo_postselect] *)

Module Tomo.
Local Open Scope Z_scope.

(** A count table as [Result.get_counts] returns it: a Python dict from
    bitstring keys (registers separated by a space, the register added last
    first) to integer counts, in insertion order.  The keys of a dict are
    distinct. *)
Abbreviation counts := (list (string * Z)).

(** [d[k]] *)
Fixpoint dict_get (d : counts) (k : string) : option Z :=
  match d with
  | [] => None
  | (k', v) :: d' => if String.eqb k' k then Some v else dict_get d' k
  end.

(** [d[k] = v]: an existing key keeps its place. *)
Fixpoint dict_set (d : counts) (k : string) (v : Z) : counts :=
  match d with
  | [] => [(k, v)]
  | (k', v') :: d' =>
      if String.eqb k' k then (k', v) :: d' else (k', v') :: dict_set d' k v
  end.

(** [s.split(sep)] for a one-character separator. *)
Fixpoint split (sep : ascii) (s : string) : list string :=
  match s with
  | EmptyString => [EmptyString]
  | String c rest =>
      if Ascii.eqb c sep then EmptyString :: split sep rest
      else match split sep rest with
           | [] => [String c EmptyString]
           | tok :: toks => String c tok :: toks
           end
  end.

(** [k[0] == "1"] *)
Definition starts_with_one (k : string) : res bool :=
  match k with
  | EmptyString => Raise IndexError
  | String c _ => Ok (Ascii.eqb c "1")
  end.

(** Lines 318-323: the success and failure totals of one table. *)
Definition success_failure (cts : counts) : res (Z * Z) :=
  for_each cts (fun kv sf =>
    let* one := starts_with_one (fst kv) in
    if one then Ok (fst sf + snd kv, snd sf) else Ok (fst sf, snd sf + snd kv))
    (0, 0).

(** Line 324: [s/(f+s)], a true division of two ints. *)
Definition success_ratio (cts : counts) : res Q :=
  let* sf := success_failure cts in
  let s := fst sf in
  let f := snd sf in
  if f + s =? 0 then Raise ZeroDivisionError
  else Ok (inject_Z s / inject_Z (f + s))%Q.

(** Lines 315-326: one ratio per tomography circuit, truncated to the
    original dimension. *)
Definition probability_result (original_dimension : nat) (tables : list counts)
  : res (list Q) :=
  let* probs := for_each tables (fun cts probs =>
                  let* p := success_ratio cts in Ok (probs ++ [p])) [] in
  Ok (firstn original_dimension probs).

(** [sum(counts.values())] *)
Definition total (cts : counts) : Z := fold_right (fun kv acc => snd kv + acc) 0 cts.

(** *** Result objects

    A [Result] holds a list of experiment results; each has a header (the
    classical-register metadata) and its data (the count table).  A
    [Result] owns its experiment results, their headers and their data: an
    object graph under a [Result] is kept by value in one cell of the
    store, and a reference to a [Result] is the address of its cell. *)

Record header : Type :=
  { creg_sizes : list (string * Z);
    clbit_labels : list (string * Z);
    memory_slots : Z }.

Record experiment : Type :=
  { exp_header : header;      (* .header *)
    exp_counts : counts }.    (* .data.counts *)

Abbreviation store := (gmap nat (list experiment)).

Definition deref (σ : store) (l : nat) : res (list experiment) :=
  match σ !! l with
  | Some r => Ok r
  | None => Raise Unallocated
  end.

(** [deepcopy(results)]: a new cell with a copy of the whole graph. *)
Definition deepcopy (σ : store) (l : nat) : res (nat * store) :=
  let* r := deref σ l in
  let l' := fresh (dom σ) in
  Ok (l', <[l' := r]> σ).

(** [results.get_counts(idx)] *)
Definition get_counts (σ : store) (l : nat) (idx : nat) : res counts :=
  let* r := deref σ l in
  match r !! idx with
  | Some e => Ok (exp_counts e)
  | None => Raise IndexError
  end.

(** An assignment to a field of [results.results[idx]], in place. *)
Definition update (σ : store) (l : nat) (idx : nat)
    (f : experiment -> res experiment) : res store :=
  let* r := deref σ l in
  match r !! idx with
  | Some e => let* e' := f e in Ok (<[l := <[idx := e']> r]> σ)
  | None => Raise IndexError
  end.

Definition set_creg_sizes (e : experiment) (x : list (string * Z)) : experiment :=
  {| exp_header := {| creg_sizes := x;
                      clbit_labels := clbit_labels (exp_header e);
                      memory_slots := memory_slots (exp_header e) |};
     exp_counts := exp_counts e |}.

Definition set_clbit_labels (e : experiment) (x : list (string * Z)) : experiment :=
  {| exp_header := {| creg_sizes := creg_sizes (exp_header e);
                      clbit_labels := x;
                      memory_slots := memory_slots (exp_header e) |};
     exp_counts := exp_counts e |}.

Definition set_memory_slots (e : experiment) (x : Z) : experiment :=
  {| exp_header := {| creg_sizes := creg_sizes (exp_header e);
                      clbit_labels := clbit_labels (exp_header e);
                      memory_slots := x |};
     exp_counts := exp_counts e |}.

Definition set_counts (e : experiment) (x : counts) : experiment :=
  {| exp_header := exp_header e; exp_counts := x |}.

(** Lines 351-354: the entries whose first register reads "1", keyed by
    their second register. *)
Definition select_success (old_counts : counts) : res counts :=
  for_each (map fst old_counts) (fun reg_key new_counts =>
    let reg_bits := split " " reg_key in
    match reg_bits with
    | [] => Raise IndexError
    | bit :: rest =>
        if String.eqb bit "1" then
          match rest, dict_get old_counts reg_key with
          | io :: _, Some v => Ok (dict_set new_counts io v)
          | [], _ => Raise IndexError
          | _, None => Raise KeyError
          end
        else Ok new_counts
    end) [].

(** Lines 340-358: one round of the loop. *)
Definition postselect_step (results new_results : nat) (resultidx : nat) (σ : store)
  : res store :=
  let* old_counts := get_counts σ results resultidx in
  let* σ := update σ new_results resultidx (fun e =>
              match creg_sizes (exp_header e) with
              | [] => Raise IndexError
              | c :: _ => Ok (set_creg_sizes e [c])
              end) in
  let* σ := update σ new_results resultidx (fun e =>
              Ok (set_clbit_labels e (removelast (clbit_labels (exp_header e))))) in
  let* σ := update σ new_results resultidx (fun e =>
              Ok (set_memory_slots e (memory_slots (exp_header e) - 1))) in
  let* new_counts := select_success old_counts in
  update σ new_results resultidx (fun e => Ok (set_counts e new_counts)).

(** Lines 336-360.  The result is the reference [new_results] and the store
    after the call. *)
Definition _tomo_postselect (σ : store) (results : nat) : res (nat * store) :=
  let* copy := deepcopy σ results in
  let new_results := fst copy in
  let σ := snd copy in
  let* r := deref σ results in
  let* σ := for_each (seq 0 (length r)) (postselect_step results new_results) σ in
  Ok (new_results, σ).

(** *** Tables and records as the backend returns them *)

Definition nonempty_keys (cts : counts) : Prop :=
  Forall (fun kv => fst kv <> EmptyString) cts.

Definition nonnegative (cts : counts) : Prop :=
  Forall (fun kv => 0 <= snd kv) cts.

Fixpoint no_space (s : string) : bool :=
  match s with
  | EmptyString => true
  | String c rest => negb (Ascii.eqb c " ") && no_space rest
  end.

(** A key of a tomography circuit's table: the ancilla bit, a space, the
    bits of the io register. *)
Definition wf_key (k : string) : Prop :=
  exists a io, k = String a (String " " io) /\ a <> " "%char /\ no_space io = true.

Definition wf_experiment (e : experiment) : Prop :=
  creg_sizes (exp_header e) <> [] /\
  Forall wf_key (map fst (exp_counts e)) /\
  List.NoDup (map fst (exp_counts e)).

(** *** Postselection, as the specification words it

    Keep the entries of the success branch, keyed by the io-register
    bitstring only; one classical bit fewer in the metadata. *)

Definition ancilla_is_one (k : string) : bool :=
  match k with
  | String c _ => Ascii.eqb c "1"
  | EmptyString => false
  end.

(** The two parts of a table: ancilla read as 1, ancilla read as 0. *)
Definition success_counts (cts : counts) : counts :=
  List.filter (fun kv => ancilla_is_one (fst kv)) cts.

Definition failure_counts (cts : counts) : counts :=
  List.filter (fun kv => negb (ancilla_is_one (fst kv))) cts.

Definition io_bits (k : string) : string :=
  match k with
  | String _ (String _ io) => io
  | _ => EmptyString
  end.

Definition postselected_counts (cts : counts) : counts :=
  map (fun kv => (io_bits (fst kv), snd kv)) (success_counts cts).

Definition postselected (e : experiment) : experiment :=
  {| exp_header :=
       {| creg_sizes := firstn 1 (creg_sizes (exp_header e));
          clbit_labels := removelast (clbit_labels (exp_header e));
          memory_slots := memory_slots (exp_header e) - 1 |};
     exp_counts := postselected_counts (exp_counts e) |}.

(** *** Sample data *)

Definition table1 : counts := [("1 01", 3); ("0 01", 5); ("1 10", 2)]%string.

Definition header1 : header :=
  {| creg_sizes := [("c0", 2); ("c1", 1)]%string;
     clbit_labels := [("c0", 0); ("c0", 1); ("c1", 0)]%string;
     memory_slots := 3 |}.

Definition store1 : store := {[ 7%nat := [ {| exp_header := header1; exp_counts := table1 |} ] ]}.
End Tomo.

(** ** Result extraction: [_hhl_results] and [_statevector_simulation] *)

Module Rescale.

(** The numpy operations the two functions use, on values of any dtype.
    Nothing is assumed about them: floating-point arithmetic is neither
    associative nor exact, and the functions below apply the operations in
    the order of the source. *)
Class Numeric (C : Type) : Type :=
  { np_zero : C;                  (* 0 *)
    np_one : C;                   (* 1 *)
    np_neg_j : C;                 (* -1j *)
    np_add : C -> C -> C;
    np_sub : C -> C -> C;
    np_mul : C -> C -> C;
    np_div : C -> C -> C;
    np_conj : C -> C;             (* z.conj() *)
    np_real : C -> C;             (* np.real *)
    np_angle : C -> C;            (* np.angle *)
    np_exp : C -> C;              (* np.exp *)
    np_log2 : nat -> C;           (* np.log2 of an int *)
    np_norm : list C -> C }.      (* np.linalg.norm of a 1-D array *)

#[global] Instance numeric_zero {C} {NC : Numeric C} : Zero C := @np_zero C NC.

Section Rescale.
Context {C : Type} {NC : Numeric C}.

Definition map2 (f : C -> C -> C) (a b : list C) : list C :=
  map (fun p => f (fst p) (snd p)) (combine a b).

(** [a op b] on 1-D arrays: entry by entry; an array of one entry is
    stretched to the length of the other. *)
Definition elementwise (f : C -> C -> C) (a b : list C) : res (list C) :=
  if length a =? length b then Ok (map2 f a b)
  else match a, b with
       | [x], _ => Ok (map (f x) b)
       | _, [y] => Ok (map (fun x => f x y) a)
       | _, _ => Raise BroadcastError
       end.

(** Python's [sum(xs)]: [((0 + x0) + x1) + ...] *)
Definition py_sum (xs : list C) : C := fold_left np_add xs np_zero.

(** The sum of products that [dot] computes for two 1-D arrays of one
    length, accumulated in index order from 0. *)
Definition sum_of_products (a b : list C) : C := py_sum (map2 np_mul a b).

(** [a.dot(b)] for 1-D arrays *)
Definition dot1 (a b : list C) : res C :=
  if length a =? length b then Ok (sum_of_products a b) else Raise ShapeError.

(** [m.dot(v)] for a 2-D array and a 1-D array *)
Definition dot (m : ndarray C) (v : list C) : res (list C) :=
  if shape1 m =? length v
  then Ok (map (fun row => sum_of_products row v) (rows m))
  else Raise ShapeError.

(** [dst[:, :] = src] into a new array of shape [(r, c)]: an axis of
    length one is stretched. *)
Definition broadcast_to (src : ndarray C) (r c : nat) : res (ndarray C) :=
  if ((shape0 src =? r) || (shape0 src =? 1)) && ((shape1 src =? c) || (shape1 src =? 1))
  then Ok (mk_matrix r c (fun i k =>
             entry src (if shape0 src =? r then i else 0)
                       (if shape1 src =? c then k else 0)))
  else Raise BroadcastError.

(** The attributes of an [HHL] instance that the result extraction reads. *)
Record HHL : Type :=
  { _matrix : ndarray C;
    _vector : list C;
    _num_q : nat;
    _original_dimension : nat }.

(** The entries of [self._ret] that the two functions write. *)
Record Ret : Type :=
  { probability_result : option C;
    output : option (list C);
    solution : option (list C) }.

(** Lines 274-275. *)
Definition _resize_vector (self : HHL) (vec : list C) : list C :=
  firstn (_original_dimension self) vec.

(** Lines 277-280. *)
Definition _resize_matrix (self : HHL) : res (ndarray C) :=
  let n := _original_dimension self in
  broadcast_to (slice2 (_matrix self) n n) n n.

(** Lines 362-376. *)
Definition _hhl_results (self : HHL) (vec : list C) (ret : Ret) : res Ret :=
  let res_vec := _resize_vector self vec in
  let in_vec := _resize_vector self (_vector self) in
  let* matrix := _resize_matrix self in
  let* tmp_vec := dot matrix res_vec in
  let f1 := np_div (np_norm in_vec) (np_norm tmp_vec) in
  let* products := elementwise np_mul in_vec (map np_conj tmp_vec) in
  let shifted := map (fun x => np_add (np_sub x np_one) np_one) products in
  let f2 := np_div (py_sum (map np_angle shifted)) (np_log2 (shape0 matrix)) in
  let phase := np_exp (np_mul np_neg_j f2) in
  Ok {| probability_result := probability_result ret;
        output := Some res_vec;
        solution := Some (map (fun x => np_mul x phase) (map (np_mul f1) res_vec)) |}.

(** [Reciprocal.sv_to_resvec], of the reciprocal engine. *)
Variable sv_to_resvec : list C -> nat -> list C.

(** Lines 282-295, from the statevector [sv] that the backend returned. *)
Definition _statevector_simulation (self : HHL) (sv : list C) (ret : Ret) : res Ret :=
  let vec := sv_to_resvec sv (_num_q self) in
  let* p := dot1 (_resize_vector self vec) (map np_conj (_resize_vector self vec)) in
  let ret := {| probability_result := Some (np_real p);
                output := output ret;
                solution := solution ret |} in
  let vec := map (fun x => np_div x (np_norm vec)) vec in
  _hhl_results self vec ret.

(** *** The rescaling, as the specification words it

    [[
    probe    = matrix . decoded_vector
    f1       = norm(vector) / norm(probe)
    f2       = sum_i angle(vector_i * conj(probe_i) - 1 + 1) / log2(matrix_dimension)
    solution = f1 * decoded_vector * exp(-i * f2)
    ]]
    for [matrix], [vector] and [decoded_vector] already truncated. *)

Definition rescaled (matrix : ndarray C) (vector decoded_vector : list C) : list C :=
  let probe := map (fun row => sum_of_products row decoded_vector) (rows matrix) in
  let f1 := np_div (np_norm vector) (np_norm probe) in
  let f2 :=
    np_div
      (py_sum (map (fun vp =>
                 np_angle (np_add (np_sub (np_mul (fst vp) (np_conj (snd vp))) np_one) np_one))
               (combine vector probe)))
      (np_log2 (shape0 matrix)) in
  map (fun x => np_mul (np_mul f1 x) (np_exp (np_mul np_neg_j f2))) decoded_vector.

(** A configured problem: a square matrix, a vector of its dimension, an
    original dimension within it. *)
Definition configured (self : HHL) : Prop :=
  exists n, square n (_matrix self) /\ length (_vector self) = n /\
            _original_dimension self <= n.

End Rescale.
Arguments HHL C : clear implicits.
Arguments Ret C : clear implicits.

(** *** Symbolic values

    Terms over the numpy operations, to evaluate the functions on a
    sample. *)

#[local] Unset Elimination Schemes.
Inductive term : Type :=
| Lit (z : Z)
| Var (name : string)
| NegJ
| Add (a b : term)
| Sub (a b : term)
| Mul (a b : term)
| Div (a b : term)
| Conj (a : term)
| Real (a : term)
| Angle (a : term)
| Exp (a : term)
| Log2 (n : nat)
| Norm (l : list term).
#[local] Set Elimination Schemes.

#[global] Instance term_numeric : Numeric term :=
  {| np_zero := Lit 0; np_one := Lit 1; np_neg_j := NegJ;
     np_add := Add; np_sub := Sub; np_mul := Mul; np_div := Div;
     np_conj := Conj; np_real := Real; np_angle := Angle; np_exp := Exp;
     np_log2 := Log2; np_norm := Norm |}.

(** A 3x3 problem: the matrix [[a, b, 0], [c, d, 0], [0, 0, 1]], the vector
    [u, v, 0], original dimension 2. *)
Definition sample_problem : HHL term :=
  {| _matrix := NdArray 3 [[Var "a"; Var "b"; Lit 0];
                           [Var "c"; Var "d"; Lit 0];
                           [Lit 0; Lit 0; Lit 1]];
     _vector := [Var "u"; Var "v"; Lit 0];
     _num_q := 2;
     _original_dimension := 2 |}.

Definition sample_decoded : list term := [Var "x"; Var "y"; Var "z"].

Definition empty_ret : Ret term :=
  {| probability_result := None; output := None; solution := None |}.
End Rescale.

(** ** Steps of [init_params], for stating what each contributes *)

Module PreSteps.
Import Pre.

(** Lines 168-182 alone: the matrix and the vector that reach line 184. *)
Definition after_hermitian (A : ndarray complex) (b : list complex) (auto_hermitian : bool)
  : ndarray complex * list complex :=
  if auto_hermitian && negb (allclose A (H A)) then expand_hermitian A b else (A, b).
End PreSteps.

(** ** More sample inputs for [init_params] *)

Module MoreInputs.
Import Pre PreInputs.

(** The 3x3 identity with the vector [1, 0, 0], as [init_params] returns it
    when auto_resize is set. *)
Definition problem_I3_resized : HHL :=
  {| _matrix := identity 4;
     _vector := [ci 1 0; ci 0 0; ci 0 0; ci 0 0];
     _auto_hermitian := false;
     _auto_resize := true;
     _original_dimension := 3 |}.

(** A 0x0 matrix. *)
Definition M_empty : ndarray complex := NdArray 0 [].
End MoreInputs.

(** ** The constructor, for the attributes the result extraction reads *)

Module Construct.
Import Rescale.

Section Construct.
Context {C : Type} {NC : Numeric C}.

(** Lines 89-134.  [num_q] and [orig_size] are keyword arguments with the
    default 0; nothing is checked. *)
Definition __init__ (matrix : ndarray C) (vector : list C)
    (num_q orig_size : option nat) : HHL C :=
  {| _matrix := matrix;
     _vector := vector;
     _num_q := match num_q with Some q => q | None => 0 end;
     _original_dimension := match orig_size with Some n => n | None => 0 end |}.

(** The instance with another matrix. *)
Definition with_matrix (self : HHL C) (m : ndarray C) : HHL C :=
  {| _matrix := m;
     _vector := _vector self;
     _num_q := _num_q self;
     _original_dimension := _original_dimension self |}.

(** Two instances agree on what lies within the original dimension. *)
Definition same_problem (self self' : HHL C) : Prop :=
  _original_dimension self = _original_dimension self' /\
  slice2 (_matrix self) (_original_dimension self) (_original_dimension self) =
  slice2 (_matrix self') (_original_dimension self) (_original_dimension self) /\
  firstn (_original_dimension self) (_vector self) =
  firstn (_original_dimension self) (_vector self').
End Construct.

(** The sample problem with original dimension 5, beyond its 3x3 matrix. *)
Definition sample_oversized : HHL term :=
  __init__ (_matrix sample_problem) (_vector sample_problem) (Some 2) (Some 5).

(** The sample problem with other entries outside the original dimension. *)
Definition sample_problem' : HHL term :=
  {| _matrix := NdArray 3 [[Var "a"; Var "b"; Var "p"];
                           [Var "c"; Var "d"; Var "q"];
                           [Var "r"; Var "s"; Var "t"]];
     _vector := [Var "u"; Var "v"; Var "w"];
     _num_q := 2;
     _original_dimension := 2 |}.
End Construct.

(** ** More sample data for the count loops *)

Module MoreTables.
Import Tomo.
Local Open Scope Z_scope.

(** A table whose counts are all zero, and one with a key that is just the
    ancilla bit. *)
Definition table_zero : counts := [("1 01", 0); ("0 01", 0)]%string.
Definition table_no_io : counts := [("0 01", 4); ("1", 6)]%string.

(** A header without classical registers. *)
Definition header_empty : header :=
  {| creg_sizes := []; clbit_labels := []; memory_slots := 0 |}.

Definition store2 : gmap nat (list experiment) :=
  {[ 3%nat := [ {| exp_header := header1; exp_counts := table1 |};
                {| exp_header := header_empty; exp_counts := table1 |} ] ]}.

(** The reference and the store that postselection on [store1] returns. *)
Definition store1_after : nat * gmap nat (list experiment) :=
  match _tomo_postselect store1 7%nat with
  | Ok x => x
  | Raise _ => (0%nat, store1)
  end.
End MoreTables.

(** * Facts about arrays *)

Module ArraysFacts.
Section ArraysFacts.
Context {C : Type} {ZC : Zero C}.

Lemma length_tabulate n (f : nat -> C) : length (tabulate n f) = n.
Proof. unfold tabulate. now rewrite length_map, length_seq. Qed.

Lemma nth_tabulate n (f : nat -> C) i : i < n -> nth i (tabulate n f) zero = f i.
Proof.
  intros Hi. unfold tabulate.
  rewrite (nth_indep _ zero (f 0)) by (rewrite length_map, length_seq; lia).
  rewrite (map_nth f (seq 0 n) 0 i), seq_nth; auto.
Qed.

Lemma tabulate_ext n (f g : nat -> C) :
  (forall i, i < n -> f i = g i) -> tabulate n f = tabulate n g.
Proof.
  intros E. unfold tabulate. apply map_ext_in.
  intros i Hi. apply in_seq in Hi. apply E. lia.
Qed.

Lemma tabulate_nth (l : list C) : tabulate (length l) (fun i => nth i l zero) = l.
Proof.
  apply (nth_ext _ _ zero zero).
  - apply length_tabulate.
  - intros n Hn. rewrite length_tabulate in Hn. now apply nth_tabulate.
Qed.

Lemma shape0_mk_matrix r c (f : nat -> nat -> C) : shape0 (mk_matrix r c f) = r.
Proof. unfold shape0, mk_matrix. simpl. now rewrite length_map, length_seq. Qed.

Lemma shape1_mk_matrix r c (f : nat -> nat -> C) : shape1 (mk_matrix r c f) = c.
Proof. reflexivity. Qed.

Lemma wf_mk_matrix r c (f : nat -> nat -> C) : wf (mk_matrix r c f).
Proof.
  unfold wf, mk_matrix. simpl. apply List.Forall_forall.
  intros x Hx. apply in_map_iff in Hx. destruct Hx as [i [<- _]].
  apply length_tabulate.
Qed.

Lemma entry_mk_matrix r c (f : nat -> nat -> C) i j :
  i < r -> j < c -> entry (mk_matrix r c f) i j = f i j.
Proof.
  intros Hi Hj. unfold entry, mk_matrix. simpl.
  rewrite (nth_indep _ [] (tabulate c (f 0))) by (rewrite length_map, length_seq; lia).
  rewrite (map_nth (fun i => tabulate c (f i)) (seq 0 r) 0 i), seq_nth by auto.
  now apply nth_tabulate.
Qed.

Lemma mk_matrix_ext r c (f g : nat -> nat -> C) :
  (forall i j, i < r -> j < c -> f i j = g i j) -> mk_matrix r c f = mk_matrix r c g.
Proof.
  intros E. unfold mk_matrix. f_equal. apply map_ext_in.
  intros i Hi. apply in_seq in Hi. apply tabulate_ext. intros j Hj. apply E; lia.
Qed.

(** A well-formed array is the table of its entries. *)
Lemma mk_matrix_entry (a : ndarray C) :
  wf a -> mk_matrix (shape0 a) (shape1 a) (entry a) = a.
Proof.
  destruct a as [c rs]. unfold wf, shape0, mk_matrix, entry. simpl. intros W.
  f_equal. apply (nth_ext _ _ [] []).
  - now rewrite length_map, length_seq.
  - intros i Hi. rewrite length_map, length_seq in Hi.
    rewrite (nth_indep _ [] (tabulate c (fun j => nth j (nth 0 rs []) zero)))
      by (rewrite length_map, length_seq; lia).
    rewrite (map_nth (fun i => tabulate c (fun j => nth j (nth i rs []) zero)) (seq 0 (length rs)) 0 i).
    rewrite seq_nth by auto. simpl.
    assert (L : length (nth i rs []) = c).
    { rewrite List.Forall_forall in W. apply W. now apply nth_In. }
    rewrite <- L. apply tabulate_nth.
Qed.

Lemma shape0_set_block (dst : ndarray C) r0 r1 c0 c1 src :
  shape0 (set_block dst r0 r1 c0 c1 src) = shape0 dst.
Proof. apply shape0_mk_matrix. Qed.

Lemma shape1_set_block (dst : ndarray C) r0 r1 c0 c1 src :
  shape1 (set_block dst r0 r1 c0 c1 src) = shape1 dst.
Proof. reflexivity. Qed.

Lemma wf_set_block (dst : ndarray C) r0 r1 c0 c1 src : wf (set_block dst r0 r1 c0 c1 src).
Proof. apply wf_mk_matrix. Qed.

Lemma entry_set_block (dst : ndarray C) r0 r1 c0 c1 src i j :
  i < shape0 dst -> j < shape1 dst ->
  entry (set_block dst r0 r1 c0 c1 src) i j =
    if (r0 <=? i) && (i <? r1) && (c0 <=? j) && (j <? c1)
    then entry src (i - r0) (j - c0)
    else entry dst i j.
Proof. intros Hi Hj. unfold set_block. now rewrite entry_mk_matrix. Qed.

Lemma set_slice_length (dst : list C) a b src : length (set_slice dst a b src) = length dst.
Proof. apply length_tabulate. Qed.

Lemma nth_set_slice (dst : list C) a b src i :
  i < length dst ->
  nth i (set_slice dst a b src) zero =
    if (a <=? i) && (i <? b) then nth (i - a) src zero else nth i dst zero.
Proof. intros Hi. unfold set_slice. now rewrite nth_tabulate. Qed.

Lemma nth_repeat_zero n i : nth i (repeat (zero : C) n) zero = zero.
Proof.
  revert i. induction n as [|n IH]; intros [|i]; simpl; auto.
Qed.

(** Writing [src] at the front of a longer array of zeros pads it. *)
Lemma set_slice_prefix n (src : list C) :
  length src <= n ->
  set_slice (repeat zero n) 0 (length src) src = src ++ repeat zero (n - length src).
Proof.
  intros L. apply (nth_ext _ _ zero zero).
  - rewrite set_slice_length, length_app, !repeat_length. lia.
  - intros i Hi. rewrite set_slice_length in Hi. rewrite nth_set_slice by auto.
    rewrite repeat_length in Hi. simpl.
    destruct (i <? length src) eqn:E.
    + apply Nat.ltb_lt in E. rewrite app_nth1 by auto. now rewrite Nat.sub_0_r.
    + apply Nat.ltb_ge in E. rewrite app_nth2 by auto. now rewrite !nth_repeat_zero.
Qed.
End ArraysFacts.
End ArraysFacts.
Import ArraysFacts.

Module GaussFacts.
Local Open Scope Q_scope.

Lemma conj_conj z : conj (conj z) = z.
Proof.
  destruct z as [[a b] [c d]]. unfold conj, Qopp. simpl.
  now rewrite Z.opp_involutive.
Qed.

Lemma conj_zero : conj zero = zero.
Proof. reflexivity. Qed.

Lemma isclose_refl a : isclose a a = true.
Proof.
  unfold isclose. apply orb_true_iff. left. apply Qle_bool_iff.
  unfold cabs2, csub, atol, rtol. simpl.
  generalize (re a) (im a). intros x y. nra.
Qed.
End GaussFacts.
Import GaussFacts.

(** * Facts about [init_params] *)

Module PreFacts.
Import Pre PreInputs.

Ltac bool_cases :=
  repeat match goal with
  | |- context [?a <=? ?b] => destruct (Nat.leb_spec a b)
  | |- context [?a <? ?b] => destruct (Nat.ltb_spec a b)
  | |- context [?a =? ?b] => destruct (Nat.eqb_spec a b)
  end; simpl; try lia.

Lemma entry_zeros r c i k : entry (zeros r c) i k = zero.
Proof.
  unfold zeros. destruct (Nat.lt_ge_cases i r) as [Hi|Hi], (Nat.lt_ge_cases k c) as [Hk|Hk].
  - now rewrite entry_mk_matrix.
  - unfold entry. apply nth_overflow.
    assert (W := wf_mk_matrix r c (fun _ _ => (zero : complex))).
    unfold wf in W. rewrite List.Forall_forall in W. rewrite W; auto.
    apply nth_In. fold (shape0 (mk_matrix r c (fun _ _ => (zero : complex)))).
    now rewrite shape0_mk_matrix.
  - unfold entry. rewrite (nth_overflow (rows _)).
    + now destruct k.
    + fold (shape0 (mk_matrix r c (fun _ _ => (zero : complex)))).
      now rewrite shape0_mk_matrix.
  - unfold entry. rewrite (nth_overflow (rows _)).
    + now destruct k.
    + fold (shape0 (mk_matrix r c (fun _ _ => (zero : complex)))).
      now rewrite shape0_mk_matrix.
Qed.

Lemma entry_H m i k :
  i < shape1 m -> k < shape0 m -> entry (H m) i k = conj (entry m k i).
Proof. intros Hi Hk. unfold H. now rewrite entry_mk_matrix. Qed.

Lemma expand_hermitian_shape0 A b :
  shape0 (fst (expand_hermitian A b)) = 2 * shape0 A.
Proof.
  unfold expand_hermitian. simpl fst.
  rewrite !shape0_set_block. unfold zeros. now rewrite shape0_mk_matrix.
Qed.

Lemma expand_hermitian_shape1 A b :
  shape1 (fst (expand_hermitian A b)) = 2 * shape0 A.
Proof. reflexivity. Qed.

Lemma expand_hermitian_wf A b : wf (fst (expand_hermitian A b)).
Proof. unfold expand_hermitian. simpl fst. apply wf_set_block. Qed.

(** What lines 171-177 build: the input in the top-right block, its
    conjugate transpose in the bottom-left block, zeros on the diagonal
    blocks. *)
Lemma expand_hermitian_entry d A b i k :
  square d A -> i < 2 * d -> k < 2 * d ->
  entry (fst (expand_hermitian A b)) i k =
    if i <? d
    then (if k <? d then zero else entry A i (k - d))
    else (if k <? d then conj (entry A k (i - d)) else zero).
Proof.
  intros (S0 & S1 & W) Hi Hk.
  unfold expand_hermitian. simpl fst. rewrite S0.
  rewrite entry_set_block.
  2:{ rewrite shape0_set_block. unfold zeros. rewrite shape0_mk_matrix. lia. }
  2:{ rewrite shape1_set_block. simpl. lia. }
  rewrite entry_set_block.
  2:{ unfold zeros. rewrite shape0_mk_matrix. lia. }
  2:{ simpl. lia. }
  rewrite entry_zeros.
  bool_cases; rewrite ?Nat.sub_0_r; auto.
  apply entry_H; lia.
Qed.

(** Lines 178-182: the expanded vector is [conj(b)] followed by [b]. *)
Lemma expand_hermitian_vector A b :
  length b = shape0 A ->
  snd (expand_hermitian A b) = map conj b ++ b.
Proof.
  intros L. unfold expand_hermitian. simpl snd. rewrite <- L.
  apply (nth_ext _ _ zero zero).
  - rewrite !set_slice_length, repeat_length, length_app, length_map. lia.
  - intros i Hi. rewrite !set_slice_length, repeat_length in Hi.
    rewrite nth_set_slice by (rewrite set_slice_length, repeat_length; lia).
    rewrite nth_set_slice by (rewrite repeat_length; lia).
    bool_cases.
    + rewrite app_nth2 by (rewrite length_map; lia). now rewrite length_map.
    + rewrite app_nth1 by (rewrite length_map; lia). now rewrite Nat.sub_0_r.
Qed.


Lemma expand_hermitian_self_adjoint d A b :
  square d A -> H (fst (expand_hermitian A b)) = fst (expand_hermitian A b).
Proof.
  intros Sq.
  rewrite <- (mk_matrix_entry (expand_hermitian_wf A b)) at 2.
  unfold H at 1.
  rewrite expand_hermitian_shape0, expand_hermitian_shape1.
  destruct Sq as (S0 & S1 & W). rewrite S0.
  apply mk_matrix_ext. intros i k Hi Hk.
  rewrite !(@expand_hermitian_entry d) by (unfold square; auto).
  bool_cases; auto using conj_zero, conj_conj.
Qed.

(** The four blocks and the vector that lines 171-182 produce. *)
Lemma expand_hermitian_layout d A b :
  square d A -> length b = d ->
  let M := fst (expand_hermitian A b) in
  square (2 * d) M /\
  block M 0 d 0 d = zeros d d /\
  block M 0 d d (2 * d) = A /\
  block M d (2 * d) 0 d = H A /\
  block M d (2 * d) d (2 * d) = zeros d d /\
  snd (expand_hermitian A b) = map conj b ++ b.
Proof.
  intros Sq L M.
  assert (Sq' := Sq). destruct Sq' as (S0 & S1 & W).
  repeat split.
  - unfold M. rewrite expand_hermitian_shape0. lia.
  - unfold M. rewrite expand_hermitian_shape1. lia.
  - apply expand_hermitian_wf.
  - unfold block, zeros. rewrite !Nat.sub_0_r.
    apply mk_matrix_ext. intros i k Hi Hk.
    unfold M. rewrite (@expand_hermitian_entry d) by (auto; lia).
    bool_cases; auto.
  - etransitivity; [|apply (mk_matrix_entry W)]. rewrite S0, S1.
    unfold block. replace (2 * d - d) with d by lia. rewrite Nat.sub_0_r.
    apply mk_matrix_ext. intros i k Hi Hk.
    unfold M. rewrite (@expand_hermitian_entry d) by (auto; lia).
    bool_cases. f_equal; lia.
  - unfold block, H. rewrite S0, S1.
    replace (2 * d - d) with d by lia. rewrite Nat.sub_0_r.
    apply mk_matrix_ext. intros i k Hi Hk.
    unfold M. rewrite (@expand_hermitian_entry d) by (auto; lia).
    bool_cases. do 2 f_equal; lia.
  - unfold block, zeros. replace (2 * d - d) with d by lia.
    apply mk_matrix_ext. intros i k Hi Hk.
    unfold M. rewrite (@expand_hermitian_entry d) by (auto; lia).
    bool_cases; auto.
  - apply expand_hermitian_vector. lia.
Qed.

Lemma allclose_refl m : allclose m m = true.
Proof.
  unfold allclose. apply forallb_forall. intros i _.
  apply forallb_forall. intros k _. apply isclose_refl.
Qed.

(** C7: the matrix that the auto_hermitian expansion produces for a
    non-Hermitian square matrix equals its own conjugate transpose, entry
    for entry (equality of arrays, no tolerance). *)
Theorem auto_hermitian_result_self_adjoint d A b :
  square d A -> allclose A (H A) = false ->
  exists M v, expand A b true false = Ok (M, v) /\
              M = fst (expand_hermitian A b) /\
              H M = M.
Proof.
  intros Sq NH. exists (fst (expand_hermitian A b)), (snd (expand_hermitian A b)).
  split; [|split].
  - unfold expand. rewrite NH. simpl. now destruct (expand_hermitian A b).
  - reflexivity.
  - now apply expand_hermitian_self_adjoint with (d := d).
Qed.

Lemma auto_hermitian_result_self_adjoint_witness :
  exists M v, expand A_nh b_nh true false = Ok (M, v) /\
              M = fst (expand_hermitian A_nh b_nh) /\
              H M = M.
Proof.
  apply (@auto_hermitian_result_self_adjoint 2 A_nh b_nh).
  - unfold square, wf. simpl. repeat split; repeat constructor.
  - vm_compute. reflexivity.
Defined.

(** C1: on the 2x2 input [[0, 1], [0, 0]] with b = [1, 0] the expansion puts
    the input itself in the top-right block and its conjugate transpose in
    the bottom-left block; the top-right block is not the conjugate
    transpose.  The vector and the dimension are as documented. *)
Theorem auto_hermitian_blocks_at_A_nh :
  exists M v, expand A_nh b_nh true false = Ok (M, v) /\
    M = NdArray 4 [[ci 0 0; ci 0 0; ci 0 0; ci 1 0];
                   [ci 0 0; ci 0 0; ci 0 0; ci 0 0];
                   [ci 0 0; ci 0 0; ci 0 0; ci 0 0];
                   [ci 1 0; ci 0 0; ci 0 0; ci 0 0]] /\
    block M 0 2 2 4 = A_nh /\
    block M 2 4 0 2 = H A_nh /\
    block M 0 2 2 4 <> H A_nh /\
    block M 2 4 0 2 <> A_nh /\
    v = map conj b_nh ++ b_nh /\
    shape0 M = 4 /\ shape1 M = 4.
Proof.
  eexists. eexists. split; [vm_compute; reflexivity|].
  repeat split; try (vm_compute; reflexivity); vm_compute; discriminate.
Qed.

(** A matrix that equals its conjugate transpose passes the Hermitian
    test of lines 165 and 196. *)
Lemma self_adjoint_allclose m : H m = m -> allclose m (H m) = true.
Proof. intros E. rewrite E. apply allclose_refl. Qed.

(** ** Failures *)

(** C3, as stated, fails: a 1x2 matrix with a vector of length 2 is not
    square, yet the mismatch with the vector is reported; a non-Hermitian 3x3
    matrix has a dimension that is not a power of two, yet the Hermitian
    check is reported. *)
Lemma init_params_error_precedence :
  (shape0 M_1x2 <> shape1 M_1x2 /\
   init_params (Some {| matrix := M_1x2; vector := b_2 |}) false false
     <> Raise NonSquareMatrix) /\
  (log2_integral (shape0 A3_nh) = false /\
   expand A3_nh b_3 false false = Ok (A3_nh, b_3) /\
   init_params (Some {| matrix := A3_nh; vector := b_3 |}) false false
     <> Raise InvalidDimension).
Proof.
  repeat split; try (vm_compute; reflexivity); vm_compute; discriminate.
Qed.

(** C3, amended: the checks are reported in the order of the code.  A length
    mismatch is reported first; a non-square matrix is reported when the
    lengths agree; once the expansions have returned, a matrix that is not
    Hermitian is reported, and a dimension that is not a power of two is
    reported when the matrix is Hermitian.  The flags are arbitrary. *)
Theorem init_params_failures inp auto_hermitian auto_resize :
  let m := matrix inp in
  let v := vector inp in
  let r := init_params (Some inp) auto_hermitian auto_resize in
  (shape0 m <> length v -> r = Raise DimensionMismatch) /\
  (shape0 m = length v -> shape0 m <> shape1 m -> r = Raise NonSquareMatrix) /\
  (shape0 m = length v -> shape0 m = shape1 m ->
   forall m' v', expand m v auto_hermitian auto_resize = Ok (m', v') ->
     (allclose m' (H m') = false -> r = Raise NotHermitian) /\
     (allclose m' (H m') = true -> log2_integral (shape0 m') = false ->
      r = Raise InvalidDimension)).
Proof.
  intros m v r. subst r. unfold init_params. fold m. fold v.
  split; [|split].
  - intros N. apply Nat.eqb_neq in N. now rewrite N.
  - intros E N. apply Nat.eqb_eq in E. apply Nat.eqb_neq in N. now rewrite E, N.
  - intros E1 E2 m' v' X. apply Nat.eqb_eq in E1. apply Nat.eqb_eq in E2.
    rewrite E1, E2, X. simpl. unfold revalidate.
    split.
    + intros Hf. now rewrite Hf.
    + intros Ht Pf. now rewrite Ht, Pf.
Qed.

Lemma init_params_failures_witness :
  init_params (Some {| matrix := M_1x2; vector := b_2 |}) true true = Raise DimensionMismatch /\
  init_params (Some {| matrix := M_1x2; vector := [ci 0 0] |}) true true = Raise NonSquareMatrix /\
  init_params (Some {| matrix := A_nh; vector := b_nh |}) false true = Raise NotHermitian /\
  init_params (Some {| matrix := I3; vector := b_3 |}) true false = Raise InvalidDimension.
Proof.
  split; [|split; [|split]].
  - apply (init_params_failures {| matrix := M_1x2; vector := b_2 |} true true).
    vm_compute. discriminate.
  - apply (init_params_failures {| matrix := M_1x2; vector := [ci 0 0] |} true true).
    + reflexivity.
    + vm_compute. discriminate.
  - apply (init_params_failures {| matrix := A_nh; vector := b_nh |} false true)
      with (m' := A_nh) (v' := b_nh); vm_compute; reflexivity.
  - apply (init_params_failures {| matrix := I3; vector := b_3 |} true false)
      with (m' := I3) (v' := b_3); vm_compute; reflexivity.
Defined.


(** ** Resizing *)

Lemma entry_identity n i k :
  i < n -> k < n -> entry (identity n) i k = if i =? k then one else zero.
Proof. intros Hi Hk. unfold identity. now rewrite entry_mk_matrix. Qed.

(** The size chosen on line 187-188 is the least power of two that is not
    below the dimension. *)
Lemma next_power_of_two d :
  0 < d -> d <= 2 ^ Nat.log2_up d /\ 2 ^ Nat.log2_up d < 2 * d.
Proof.
  intros Hd. destruct (Nat.eq_dec d 1) as [->|N1].
  - simpl. lia.
  - destruct (Nat.log2_up_spec d) as [Lo Hi]; [lia|].
    split; [exact Hi|].
    assert (P : 0 < Nat.log2_up d) by (apply Nat.log2_up_pos; lia).
    replace (Nat.log2_up d) with (S (Nat.pred (Nat.log2_up d))) at 1 by lia.
    rewrite Nat.pow_succ_r'. lia.
Qed.

(** What lines 186-194 build.  The matrix is the identity of the next
    power-of-two size with the input as its top-left block.  The vector is
    padded with zeros, and each of its entries is stored as a float64: its
    real part. *)
Lemma resize_layout d M v :
  square d M -> length v = d -> 0 < d ->
  let n := 2 ^ Nat.log2_up d in
  exists M' v', resize M v = Ok (M', v') /\
    square n M' /\
    block M' 0 d 0 d = M /\
    (forall i k, i < n -> k < n -> d <= i \/ d <= k ->
       entry M' i k = if i =? k then one else zero) /\
    v' = map to_float v ++ repeat zero (n - d).
Proof.
  intros Sq L Hd n. assert (Sq' := Sq). destruct Sq' as (S0 & S1 & W).
  destruct (next_power_of_two Hd) as [Le Lt]. fold n in Le, Lt.
  eexists. eexists. split.
  { unfold resize, ceil_log2. rewrite S0.
    destruct (Nat.eqb_spec d 0); [lia|]. simpl. reflexivity. }
  fold n.
  assert (I0 : shape0 (identity n) = n) by apply shape0_mk_matrix.
  split; [|split; [|split]].
  - repeat split.
    + now rewrite shape0_set_block.
    + apply wf_set_block.
  - etransitivity; [|apply (mk_matrix_entry W)]. rewrite S0, S1.
    unfold block. rewrite !Nat.sub_0_r.
    apply mk_matrix_ext. intros i k Hi Hk. simpl.
    rewrite entry_set_block by (rewrite ?I0; simpl; lia).
    bool_cases. now rewrite !Nat.sub_0_r.
  - intros i k Hi Hk Out.
    rewrite entry_set_block by (rewrite ?I0; simpl; lia).
    destruct Out; bool_cases; rewrite entry_identity by lia; bool_cases; auto.
  - rewrite <- L, <- (length_map to_float v). apply set_slice_prefix.
    rewrite length_map. lia.
Qed.

(** A vector of real entries is stored unchanged. *)
Lemma to_float_real (v : list complex) :
  Forall (fun z => im z = 0%Q) v -> map to_float v = v.
Proof.
  induction 1 as [|z v Hz _ IH]; simpl; [reflexivity|].
  rewrite IH. f_equal. destruct z as [a b]. simpl in Hz. now subst b.
Qed.

(** C6: on the 3x3 identity with the vector [1j, 2, 0] and auto_resize set,
    the matrix comes out as the 4x4 identity with the input as its top-left
    block, and the vector comes out as [0, 2, 0, 0]: its first three entries
    are the real parts of the input, not the input. *)
Theorem auto_resize_vector_at_b_3j :
  exists h, init_params (Some {| matrix := I3; vector := b_3j |}) false true = Ok h /\
    block (_matrix h) 0 3 0 3 = I3 /\
    _matrix h = identity 4 /\
    _vector h = [ci 0 0; ci 2 0; ci 0 0; ci 0 0] /\
    firstn 3 (_vector h) <> b_3j /\
    firstn 3 (_vector h) = map to_float b_3j.
Proof.
  eexists. split; [vm_compute; reflexivity|].
  simpl. split; [|split; [|split; [|split]]]; try (vm_compute; reflexivity).
  vm_compute. discriminate.
Qed.

End PreFacts.
(** * Facts about [construct_circuit] *)

Module ComposeFacts.
Import Compose.

Section Engines.
Variables InitialState Eigenvalues Reciprocal : Type.
Variable init_state_build : InitialState -> QuantumRegister -> QuantumCircuit.
Variable eigs_build_forward :
  Eigenvalues -> QuantumRegister -> QuantumCircuit * QuantumRegister.
Variable eigs_build_inverse :
  Eigenvalues -> QuantumCircuit -> QuantumRegister -> QuantumRegister -> QuantumCircuit.
Variable reciprocal_build :
  Reciprocal -> QuantumRegister -> QuantumCircuit * QuantumRegister.

Abbreviation construct :=
  (construct_circuit init_state_build eigs_build_forward eigs_build_inverse
                     reciprocal_build).

(** The circuit is a function of the configured inputs and the flag: no
    attribute that an earlier call recorded is read before it is set
    again. *)
Lemma construct_circuit_reads_inputs_only
    (h h' : HHL InitialState Eigenvalues Reciprocal) measurement :
  same_inputs h h' ->
  exists qc h1 h1',
    construct h measurement = Ok (qc, h1) /\
    construct h' measurement = Ok (qc, h1').
Proof.
  intros (Eq & Ei & Ee & Er).
  unfold construct_circuit, eigs_construct_circuit, reciprocal_construct_circuit,
    eigs_construct_inverse.
  simpl. rewrite <- Eq, <- Ei, <- Ee, <- Er.
  eexists. eexists. eexists. split; reflexivity.
Qed.

(** The instance after a call is configured as before the call. *)
Lemma construct_circuit_keeps_inputs
    (h h1 : HHL InitialState Eigenvalues Reciprocal) measurement qc :
  construct h measurement = Ok (qc, h1) -> same_inputs h h1.
Proof.
  unfold construct_circuit, eigs_construct_circuit, reciprocal_construct_circuit.
  simpl. intros E. inversion E; subst. unfold same_inputs. simpl. auto.
Qed.

End Engines.

End ComposeFacts.

(** * Facts about [construct_circuit] with the names of the registers *)

Module ComposeNamedFacts.
Import ComposeNamed.

(** ** Renumbering and dropping *)






(** The gate sequence of [qc += rhs] does not depend on the registers. *)
Lemma data_iadd qc rhs : data (iadd qc rhs) = data qc ++ data rhs.
Proof. reflexivity. Qed.


Section Engines.
Variables InitialState Eigenvalues Reciprocal : Type.
Variable init_state_build :
  InitialState -> QuantumRegister -> counter -> QuantumCircuit * counter.
Variable eigs_build_forward :
  Eigenvalues -> QuantumRegister -> counter ->
  (QuantumCircuit * QuantumRegister) * counter.
Variable eigs_build_inverse :
  Eigenvalues -> QuantumCircuit -> QuantumRegister -> QuantumRegister -> counter ->
  QuantumCircuit * counter.
Variable reciprocal_build :
  Reciprocal -> QuantumRegister -> counter ->
  (QuantumCircuit * QuantumRegister) * counter.

Abbreviation construct_named :=
  (construct_circuit init_state_build eigs_build_forward eigs_build_inverse
                     reciprocal_build).


End Engines.

Section Engines.
Variables InitialState Eigenvalues Reciprocal : Type.
Variable init_state_build :
  InitialState -> QuantumRegister -> counter -> QuantumCircuit * counter.
Variable eigs_build_forward :
  Eigenvalues -> QuantumRegister -> counter ->
  (QuantumCircuit * QuantumRegister) * counter.
Variable eigs_build_inverse :
  Eigenvalues -> QuantumCircuit -> QuantumRegister -> QuantumRegister -> counter ->
  QuantumCircuit * counter.
Variable reciprocal_build :
  Reciprocal -> QuantumRegister -> counter ->
  (QuantumCircuit * QuantumRegister) * counter.


End Engines.

(** ** The sample builders tell names apart only by position *)






End ComposeNamedFacts.
(** * Facts about the count loops *)

Module TomoFacts.
Import Tomo.
Local Open Scope Z_scope.

Lemma total_partition (cts : counts) :
  total (success_counts cts) + total (failure_counts cts) = total cts.
Proof.
  induction cts as [|[k v] cts IH]; simpl; [reflexivity|].
  destruct (ancilla_is_one k); simpl; lia.
Qed.

Lemma total_nonnegative (cts : counts) : nonnegative cts -> 0 <= total cts.
Proof.
  induction 1 as [|[k v] cts Hv _ IH]; simpl in *; lia.
Qed.

Lemma filter_nonnegative (cts : counts) p :
  nonnegative cts -> nonnegative (List.filter p cts).
Proof.
  unfold nonnegative. rewrite !List.Forall_forall. intros NN kv I.
  apply List.filter_In in I. now apply NN.
Qed.

(** The loop of lines 319-323 from any starting totals. *)
Lemma success_failure_from (cts : counts) : forall s0 f0,
  nonempty_keys cts ->
  for_each cts (fun kv sf =>
    let* one := starts_with_one (fst kv) in
    if one then Ok (fst sf + snd kv, snd sf) else Ok (fst sf, snd sf + snd kv))
    (s0, f0) = Ok (s0 + total (success_counts cts), f0 + total (failure_counts cts)).
Proof.
  induction cts as [|[k v] cts IH]; intros s0 f0 NE.
  - simpl. now rewrite !Z.add_0_r.
  - inversion NE as [|? ? Hk NE']; subst. simpl in Hk.
    destruct k as [|c k]; [congruence|].
    simpl. destruct (Ascii.eqb c "1"); simpl; rewrite (IH _ _ NE'); do 2 f_equal; lia.
Qed.

Lemma ratio_in_unit_interval s f :
  0 <= s -> 0 <= f -> 0 < f + s ->
  (0 <= inject_Z s / inject_Z (f + s) /\ inject_Z s / inject_Z (f + s) <= 1)%Q.
Proof.
  intros Hs Hf Hpos.
  assert (D : (0 < inject_Z (f + s))%Q).
  { change 0%Q with (inject_Z 0). now rewrite <- Zlt_Qlt. }
  split.
  - apply Qle_shift_div_l; [exact D|]. rewrite Qmult_0_l.
    change 0%Q with (inject_Z 0). rewrite <- Zle_Qle. lia.
  - apply Qle_shift_div_r; [exact D|]. rewrite Qmult_1_l.
    rewrite <- Zle_Qle. lia.
Qed.

Lemma success_failure_totals (cts : counts) :
  nonempty_keys cts ->
  success_failure cts = Ok (total (success_counts cts), total (failure_counts cts)).
Proof.
  intros NE. unfold success_failure. now rewrite (success_failure_from 0 0 NE).
Qed.

Lemma success_ratio_value (cts : counts) :
  nonempty_keys cts -> nonnegative cts -> 0 < total cts ->
  let s := total (success_counts cts) in
  let f := total (failure_counts cts) in
  success_ratio cts = Ok (inject_Z s / inject_Z (s + f))%Q /\
  (0 <= inject_Z s / inject_Z (s + f))%Q /\
  (inject_Z s / inject_Z (s + f) <= 1)%Q.
Proof.
  intros NE NN Pos s f.
  assert (T : s + f = total cts) by apply total_partition.
  assert (Hs : 0 <= s) by (apply total_nonnegative, filter_nonnegative, NN).
  assert (Hf : 0 <= f) by (apply total_nonnegative, filter_nonnegative, NN).
  split.
  - unfold success_ratio. rewrite (success_failure_totals NE). simpl.
    fold s. fold f.
    destruct (Z.eqb_spec (f + s) 0); [lia|]. now rewrite (Z.add_comm f s).
  - rewrite (Z.add_comm s f). apply ratio_in_unit_interval; lia.
Qed.

(** C4: for a count table with non-negative entries and a positive total
    (keys as [get_counts] gives them: not empty), the loop splits the
    entries by the ancilla bit: the success total is the total of the
    entries read as 1, the failure total that of the others, the two add up
    to the total of the table, and the success ratio [s/(s+f)] is computed
    and lies between 0 and 1. *)
Theorem success_failure_partition (cts : counts) :
  nonempty_keys cts -> nonnegative cts -> 0 < total cts ->
  exists s f p,
    success_failure cts = Ok (s, f) /\
    s = total (success_counts cts) /\
    f = total (failure_counts cts) /\
    s + f = total cts /\
    success_ratio cts = Ok p /\
    p = (inject_Z s / inject_Z (s + f))%Q /\
    (0 <= p)%Q /\ (p <= 1)%Q.
Proof.
  intros NE NN Pos.
  destruct (success_ratio_value NE NN Pos) as (R & P0 & P1).
  exists (total (success_counts cts)), (total (failure_counts cts)).
  eexists. split; [exact (success_failure_totals NE)|].
  split; [reflexivity|]. split; [reflexivity|].
  split; [apply total_partition|].
  split; [exact R|]. split; [reflexivity|]. split; assumption.
Qed.

Lemma success_failure_partition_witness :
  exists s f p,
    success_failure table1 = Ok (s, f) /\
    s = total (success_counts table1) /\
    f = total (failure_counts table1) /\
    s + f = total table1 /\
    success_ratio table1 = Ok p /\
    p = (inject_Z s / inject_Z (s + f))%Q /\
    (0 <= p)%Q /\ (p <= 1)%Q.
Proof.
  apply (@success_failure_partition table1).
  - repeat constructor; discriminate.
  - repeat constructor; simpl; lia.
  - vm_compute. reflexivity.
Defined.

(** Lines 315-326: when every table is as above, one ratio per table is
    reported, up to the original dimension, each between 0 and 1. *)
Lemma probability_loop (tables : list counts) : forall acc,
  Forall (fun cts => nonempty_keys cts /\ nonnegative cts /\ 0 < total cts) tables ->
  exists ps,
    for_each tables (fun cts probs =>
      let* p := success_ratio cts in Ok (probs ++ [p])) acc = Ok (acc ++ ps) /\
    length ps = length tables /\
    Forall (fun p => (0 <= p)%Q /\ (p <= 1)%Q) ps.
Proof.
  induction tables as [|cts tables IH]; intros acc Hall.
  - exists []. simpl. rewrite app_nil_r. auto.
  - inversion Hall as [|? ? (NE & NN & Pos) Hall']; subst.
    destruct (success_ratio_value NE NN Pos) as (R & P0 & P1).
    set (p := (inject_Z (total (success_counts cts)) /
               inject_Z (total (success_counts cts) + total (failure_counts cts)))%Q) in *.
    destruct (IH (acc ++ [p]) Hall') as (ps & E & L & F).
    exists (p :: ps). simpl. rewrite R. simpl. rewrite E.
    rewrite <- List.app_assoc. simpl. repeat split; auto.
Qed.

Lemma probability_result_in_unit_interval original_dimension (tables : list counts) :
  Forall (fun cts => nonempty_keys cts /\ nonnegative cts /\ 0 < total cts) tables ->
  exists ps,
    probability_result original_dimension tables = Ok ps /\
    length ps = Nat.min original_dimension (length tables) /\
    Forall (fun p => (0 <= p)%Q /\ (p <= 1)%Q) ps.
Proof.
  intros Hall. destruct (probability_loop [] Hall) as (ps & E & L & F).
  exists (firstn original_dimension ps). unfold probability_result.
  rewrite E. simpl. split; [reflexivity|]. split.
  - now rewrite length_firstn, L.
  - rewrite List.Forall_forall in *. intros p I. apply F.
    rewrite <- (firstn_skipn original_dimension ps). apply List.in_or_app. now left.
Qed.

(** ** Postselection *)

Lemma split_no_space s : no_space s = true -> split " " s = [s].
Proof.
  induction s as [|c s IH]; simpl; [reflexivity|].
  intros Hs. apply andb_true_iff in Hs. destruct Hs as [Hc Hs].
  apply negb_true_iff in Hc. rewrite Hc, (IH Hs). reflexivity.
Qed.

Lemma split_wf_key a io :
  a <> " "%char -> no_space io = true ->
  split " " (String a (String " " io)) = [String a EmptyString; io].
Proof.
  intros Ha Hio. simpl. rewrite (split_no_space _ Hio).
  destruct (Ascii.eqb_spec a " "); [contradiction|reflexivity].
Qed.

Lemma dict_get_in (d : counts) k v :
  List.NoDup (map fst d) -> In (k, v) d -> dict_get d k = Some v.
Proof.
  induction d as [|[k' v'] d IH]; simpl; [tauto|].
  intros ND [E|I].
  - inversion E; subst. now rewrite String.eqb_refl.
  - apply List.NoDup_cons_iff in ND. destruct ND as [Nin ND].
    destruct (String.eqb_spec k' k) as [->|_].
    + exfalso. apply Nin. apply List.in_map_iff. now exists (k, v).
    + auto.
Qed.

Lemma dict_set_fresh (d : counts) k v :
  ~ In k (map fst d) -> dict_set d k v = d ++ [(k, v)].
Proof.
  induction d as [|[k' v'] d IH]; simpl; [reflexivity|].
  intros Nin. destruct (String.eqb_spec k' k) as [->|_]; [tauto|].
  rewrite IH; [reflexivity|tauto].
Qed.

Lemma in_postselected_keys (cts : counts) io :
  In io (map fst (postselected_counts cts)) ->
  exists k, In k (map fst cts) /\ ancilla_is_one k = true /\ io_bits k = io.
Proof.
  unfold postselected_counts, success_counts. rewrite List.map_map. simpl.
  intros I. apply List.in_map_iff in I. destruct I as ([k v] & E & I).
  apply List.filter_In in I. destruct I as [I S]. simpl in *.
  exists k. repeat split; auto. apply List.in_map_iff. now exists (k, v).
Qed.

(** A key of the success branch is determined by its io bits. *)
Lemma success_key_io k :
  wf_key k -> ancilla_is_one k = true -> k = String "1" (String " " (io_bits k)).
Proof.
  intros (a & io & -> & _ & _). simpl. intros E.
  apply Ascii.eqb_eq in E. now subst a.
Qed.

(** The loop of lines 351-354 from any table built so far. *)
Lemma select_success_from (old : counts) : forall (done todo : counts),
  old = done ++ todo ->
  List.NoDup (map fst old) ->
  Forall wf_key (map fst old) ->
  for_each (map fst todo) (fun reg_key new_counts =>
    let reg_bits := split " " reg_key in
    match reg_bits with
    | [] => Raise IndexError
    | bit :: rest =>
        if String.eqb bit "1" then
          match rest, dict_get old reg_key with
          | io :: _, Some v => Ok (dict_set new_counts io v)
          | [], _ => Raise IndexError
          | _, None => Raise KeyError
          end
        else Ok new_counts
    end) (postselected_counts done) = Ok (postselected_counts old).
Proof.
  intros done todo. revert done.
  induction todo as [|[k v] todo IH]; intros done E ND WF.
  - rewrite app_nil_r in E. subst. reflexivity.
  - assert (Wk : wf_key k).
    { rewrite List.Forall_forall in WF. apply WF. subst old.
      rewrite List.map_app. apply List.in_or_app. right. now left. }
    assert (G : dict_get old k = Some v).
    { apply dict_get_in; [exact ND|]. subst old. apply List.in_or_app. right. now left. }
    assert (E' : old = (done ++ [(k, v)]) ++ todo) by (rewrite <- List.app_assoc; exact E).
    specialize (IH _ E' ND WF).
    destruct Wk as (a & io & Ek & Ha & Hio).
    cbn [map fst for_each]. rewrite Ek at 1. rewrite (split_wf_key io Ha Hio). cbn iota.
    assert (P : postselected_counts (done ++ [(k, v)]) =
                if Ascii.eqb a "1" then postselected_counts done ++ [(io, v)]
                else postselected_counts done).
    { unfold postselected_counts, success_counts. rewrite List.filter_app, List.map_app. simpl.
      rewrite Ek. simpl. destruct (Ascii.eqb a "1"); simpl; [reflexivity|].
      now rewrite app_nil_r. }
    rewrite P in IH.
    destruct (Ascii.eqb_spec a "1") as [->|Na].
    + simpl. rewrite G. simpl.
      rewrite dict_set_fresh; [exact IH|].
      intros I. apply in_postselected_keys in I. destruct I as (k' & Ik' & S' & Io').
      assert (Wk' : wf_key k').
      { rewrite List.Forall_forall in WF. apply WF. subst old.
        rewrite List.map_app. apply List.in_or_app. now left. }
      apply success_key_io in S'; [|exact Wk']. rewrite Io' in S'.
      rewrite <- Ek in S'. subst k'.
      subst old. rewrite List.map_app in ND. simpl in ND.
      apply List.NoDup_remove_2 in ND. apply ND. apply List.in_or_app. now left.
    + replace (String.eqb (String a EmptyString) "1") with false.
      * simpl. exact IH.
      * symmetry. apply String.eqb_neq. intros X. inversion X. contradiction.
Qed.

Lemma select_success_spec (cts : counts) :
  List.NoDup (map fst cts) -> Forall wf_key (map fst cts) ->
  select_success cts = Ok (postselected_counts cts).
Proof.
  intros ND WF. unfold select_success.
  now apply (@select_success_from cts [] cts).
Qed.


(** One round of the loop on an entry that the earlier rounds have not
    touched: the copy at [new_results] gets the postselected entry, and no
    other cell of the store is written. *)
Lemma postselect_step_spec (σ0 : store) results new_results r cur i e :
  results <> new_results ->
  σ0 !! results = Some r ->
  r !! i = Some e ->
  cur !! i = Some e ->
  wf_experiment e ->
  postselect_step results new_results i (<[new_results := cur]> σ0) =
    Ok (<[new_results := <[i := postselected e]> cur]> σ0).
Proof.
  intros Ne Hr Hri Hci (Hc & Wk & ND).
  assert (Li : (i < length cur)%nat) by (eapply lookup_lt_Some; eauto).
  unfold postselect_step, get_counts, update, deref.
  rewrite lookup_insert_ne by auto. rewrite Hr. simpl. rewrite Hri. simpl.
  rewrite lookup_insert_eq. simpl. rewrite Hci.
  destruct (creg_sizes (exp_header e)) as [|c cs] eqn:Ec; [congruence|]. simpl.
  rewrite insert_insert_eq, lookup_insert_eq. simpl.
  rewrite list_lookup_insert_eq by auto. simpl.
  rewrite insert_insert_eq, lookup_insert_eq. simpl.
  rewrite list_insert_insert_eq, list_lookup_insert_eq by auto. simpl.
  rewrite (@select_success_spec _ ND Wk). simpl.
  rewrite insert_insert_eq, lookup_insert_eq. simpl.
  rewrite list_insert_insert_eq, list_lookup_insert_eq by auto. simpl.
  rewrite insert_insert_eq, !list_insert_insert_eq.
  do 3 f_equal. unfold postselected, set_counts, set_memory_slots. simpl.
  now rewrite Ec.
Qed.

(** The loop of lines 339-358 from round [a] on. *)
Lemma postselect_loop (σ0 : store) results new_results r : forall n a,
  results <> new_results ->
  σ0 !! results = Some r ->
  Forall wf_experiment r ->
  (a + n = length r)%nat ->
  for_each (seq a n) (postselect_step results new_results)
    (<[new_results := map postselected (take a r) ++ drop a r]> σ0) =
  Ok (<[new_results := map postselected r]> σ0).
Proof.
  induction n as [|n IH]; intros a Ne Hr WF L.
  - simpl. rewrite take_ge, drop_ge by lia. now rewrite app_nil_r.
  - assert (La : (a < length r)%nat) by lia.
    destruct (lookup_lt_is_Some_2 r a La) as [e He].
    assert (We : wf_experiment e).
    { rewrite List.Forall_forall in WF. apply WF.
      apply list_elem_of_In. eapply list_elem_of_lookup_2; eauto. }
    assert (Lp : length (map postselected (take a r)) = a).
    { rewrite length_map, length_take. lia. }
    cbn [seq for_each].
    rewrite (@postselect_step_spec σ0 results new_results r _ a e); auto.
    + simpl.
      replace (<[a := postselected e]> (map postselected (take a r) ++ drop a r))
        with (map postselected (take (S a) r) ++ drop (S a) r).
      * apply IH; auto. lia.
      * rewrite (take_S_r r a e He), (drop_S r e a He).
        rewrite List.map_app. simpl. rewrite <- List.app_assoc. simpl.
        rewrite insert_app_r_alt by lia. rewrite Lp, Nat.sub_diag. reflexivity.
    + rewrite lookup_app_r by lia. rewrite Lp, Nat.sub_diag.
      rewrite lookup_drop. now rewrite Nat.add_0_r.
Qed.

(** *** What the call may write, for any record *)

Lemma rbind_ok {A B} (m : res A) (k : A -> res B) b :
  rbind m k = Ok b -> exists a, m = Ok a /\ k a = Ok b.
Proof. destruct m as [a|e]; simpl; [eauto|discriminate]. Qed.

Lemma update_frame (σ σ' : store) l idx f :
  update σ l idx f = Ok σ' -> forall k, k <> l -> σ' !! k = σ !! k.
Proof.
  unfold update, deref. destruct (σ !! l) as [r|]; simpl; [|discriminate].
  destruct (r !! idx) as [e|]; [|discriminate].
  destruct (f e) as [e'|]; simpl; [|discriminate].
  intros E k Hk. inversion E; subst. now rewrite lookup_insert_ne.
Qed.

Lemma postselect_step_frame (σ σ' : store) results new_results i :
  postselect_step results new_results i σ = Ok σ' ->
  forall k, k <> new_results -> σ' !! k = σ !! k.
Proof.
  unfold postselect_step. intros E k Hk.
  apply rbind_ok in E. destruct E as (old_counts & _ & E).
  apply rbind_ok in E. destruct E as (σ1 & U1 & E).
  apply rbind_ok in E. destruct E as (σ2 & U2 & E).
  apply rbind_ok in E. destruct E as (σ3 & U3 & E).
  apply rbind_ok in E. destruct E as (new_counts & _ & U4).
  rewrite (@update_frame _ _ _ _ _ U4 _ Hk), (@update_frame _ _ _ _ _ U3 _ Hk),
    (@update_frame _ _ _ _ _ U2 _ Hk), (@update_frame _ _ _ _ _ U1 _ Hk).
  reflexivity.
Qed.

Lemma postselect_rounds_frame results new_results (idxs : list nat) :
  forall (σ σ' : store),
  for_each idxs (postselect_step results new_results) σ = Ok σ' ->
  forall k, k <> new_results -> σ' !! k = σ !! k.
Proof.
  induction idxs as [|i idxs IH]; simpl; intros σ σ' E k Hk.
  - now inversion E.
  - apply rbind_ok in E. destruct E as (σ1 & S & E).
    rewrite (IH _ _ E k Hk). now apply (@postselect_step_frame _ _ _ _ _ S).
Qed.

(** Whenever the call returns, on any record, the reference it returns is
    new and every cell that existed before holds what it held. *)
Lemma tomo_postselect_writes_copy_only (σ σ' : store) results new_results :
  _tomo_postselect σ results = Ok (new_results, σ') ->
  σ !! new_results = None /\
  forall k, k <> new_results -> σ' !! k = σ !! k.
Proof.
  unfold _tomo_postselect, deepcopy. intros E.
  apply rbind_ok in E. destruct E as ([l' σ1] & D & E).
  apply rbind_ok in D. destruct D as (r & _ & D). inversion D; subst. clear D.
  simpl in E.
  apply rbind_ok in E. destruct E as (r' & _ & E).
  apply rbind_ok in E. destruct E as (σ2 & L & E).
  inversion E; subst. clear E.
  split.
  - apply not_elem_of_dom. apply is_fresh.
  - intros k Hk. rewrite (@postselect_rounds_frame _ _ _ _ _ L _ Hk).
    now rewrite lookup_insert_ne.
Qed.

(** C10: postselection on a stored record returns a reference that was not
    allocated before the call; the record it refers to holds, entry by
    entry, the success-branch counts keyed by the io bits, the first
    classical register only, one label and one memory slot fewer; every cell
    that existed before the call, the input record among them, holds what it
    held. *)
Theorem tomo_postselect_frame (σ : store) results r :
  σ !! results = Some r ->
  Forall wf_experiment r ->
  exists new_results σ',
    _tomo_postselect σ results = Ok (new_results, σ') /\
    σ !! new_results = None /\
    new_results <> results /\
    σ' !! new_results = Some (map postselected r) /\
    σ' !! results = Some r /\
    (forall l, l <> new_results -> σ' !! l = σ !! l).
Proof.
  intros Hr WF.
  set (l' := fresh (dom σ)).
  assert (F : σ !! l' = None).
  { apply not_elem_of_dom. apply is_fresh. }
  assert (Ne : results <> l') by (intros ->; congruence).
  exists l', (<[l' := map postselected r]> σ).
  split; [|split; [|split; [|split; [|split]]]]; auto.
  - unfold _tomo_postselect, deepcopy, deref. rewrite Hr. simpl.
    fold l'. rewrite lookup_insert_ne by auto. rewrite Hr. simpl.
    assert (E := @postselect_loop σ results l' r (length r) 0%nat Ne Hr WF eq_refl).
    rewrite take_0, drop_0 in E. simpl in E. rewrite E. reflexivity.
  - apply lookup_insert_eq.
  - rewrite lookup_insert_ne by auto. exact Hr.
  - intros l Hl. now rewrite lookup_insert_ne by auto.
Qed.

Lemma tomo_postselect_frame_witness :
  exists new_results σ',
    _tomo_postselect store1 7%nat = Ok (new_results, σ') /\
    store1 !! new_results = None /\
    new_results <> 7%nat /\
    σ' !! new_results =
      Some (map postselected [ {| exp_header := header1; exp_counts := table1 |} ]) /\
    σ' !! 7%nat = Some [ {| exp_header := header1; exp_counts := table1 |} ] /\
    (forall l, l <> new_results -> σ' !! l = store1 !! l).
Proof.
  apply (@tomo_postselect_frame store1 7%nat).
  - reflexivity.
  - constructor; [|constructor]. unfold wf_experiment. simpl.
    split; [discriminate|]. split.
    + repeat constructor.
      * exists "1"%char, "01"%string. repeat split. discriminate.
      * exists "0"%char, "01"%string. repeat split. discriminate.
      * exists "1"%char, "10"%string. repeat split. discriminate.
    + repeat constructor; simpl; intuition discriminate.
Defined.

End TomoFacts.
(** * Facts about the result extraction *)

Module RescaleFacts.
Import Rescale.

Section RescaleFacts.
Context {C : Type} {NC : Numeric C}.

Lemma shape0_slice2 (a : ndarray C) n m : shape0 (slice2 a n m) = Nat.min n (shape0 a).
Proof. unfold shape0, slice2. simpl. now rewrite length_map, length_firstn. Qed.

Lemma in_firstn (A : Type) n (l : list A) x : In x (firstn n l) -> In x l.
Proof.
  intros I. rewrite <- (firstn_skipn n l). apply List.in_or_app. now left.
Qed.

Lemma combine_map_right (A B B' : Type) (f : B -> B') (a : list A) (b : list B) :
  combine a (map f b) = map (fun p => (fst p, f (snd p))) (combine a b).
Proof.
  revert b. induction a as [|x a IH]; intros [|y b]; simpl; auto.
  now rewrite IH.
Qed.

Lemma wf_slice2 (a : ndarray C) n m : wf a -> wf (slice2 a n m).
Proof.
  unfold wf, slice2. simpl. intros W. apply List.Forall_forall.
  intros row Hrow. apply List.in_map_iff in Hrow. destruct Hrow as (row' & <- & I).
  apply in_firstn in I.
  rewrite List.Forall_forall in W. rewrite length_firstn. now rewrite (W row' I).
Qed.

(** Within a configured problem the truncated matrix is the top-left
    block, of the original dimension. *)
Lemma resize_matrix_configured (self : HHL C) n :
  square n (_matrix self) -> _original_dimension self <= n ->
  let m := slice2 (_matrix self) (_original_dimension self) (_original_dimension self) in
  _resize_matrix self = Ok m /\
  shape0 m = _original_dimension self /\
  shape1 m = _original_dimension self.
Proof.
  intros (S0 & S1 & W) Le m.
  assert (E0 : shape0 m = _original_dimension self).
  { unfold m. rewrite shape0_slice2, S0. lia. }
  assert (E1 : shape1 m = _original_dimension self).
  { unfold m. simpl. rewrite S1. lia. }
  split; [|split]; auto.
  unfold _resize_matrix, broadcast_to. fold m.
  rewrite E0, E1, !Nat.eqb_refl. simpl. f_equal.
  etransitivity; [|apply (mk_matrix_entry (wf_slice2 _ _ W))].
  fold m. now rewrite E0, E1.
Qed.

(** [_hhl_results] on a configured problem, for a decoded vector that
    reaches the original dimension. *)
Lemma hhl_results_configured (self : HHL C) (vec : list C) (ret : Ret C) :
  configured self ->
  _original_dimension self <= length vec ->
  let n := _original_dimension self in
  let matrix := slice2 (_matrix self) n n in
  exists ret',
    _hhl_results self vec ret = Ok ret' /\
    output ret' = Some (firstn n vec) /\
    solution ret' = Some (rescaled matrix (firstn n (_vector self)) (firstn n vec)) /\
    probability_result ret' = probability_result ret.
Proof.
  intros (d & Sq & Lv & Le) Lvec n matrix.
  destruct (resize_matrix_configured self Sq Le) as (Em & E0 & E1).
  fold n in Em, E0, E1. fold matrix in Em, E0, E1.
  assert (Lres : length (firstn n vec) = n) by (rewrite length_firstn; lia).
  assert (Lin : length (firstn n (_vector self)) = n) by (rewrite length_firstn; lia).
  clearbody matrix.
  eexists. split.
  { unfold _hhl_results. rewrite Em. cbn [rbind].
    unfold dot, _resize_vector. fold n. rewrite E1, Lres, Nat.eqb_refl. cbn [rbind].
    unfold elementwise. rewrite !length_map.
    change (length (rows matrix)) with (shape0 matrix).
    rewrite Lin, E0, Nat.eqb_refl. cbn [rbind]. reflexivity. }
  cbn [output solution probability_result].
  split; [reflexivity|]. split; [|reflexivity].
  f_equal. unfold rescaled, map2.
  rewrite ?E0, !combine_map_right, !List.map_map. cbn [fst snd]. reflexivity.
Qed.

(** C2: for a configured problem and a decoded vector that reaches the
    original dimension, [_hhl_results] reports the truncated decoded vector
    as output and, as solution, the rescaling of the specification applied
    to the truncated matrix, the truncated vector and the truncated decoded
    vector: the -1+1 shift inside the angle, the division by the log2 of
    the truncated matrix's dimension, which is the original dimension. *)
Theorem hhl_results_rescaled (self : HHL C) (vec : list C) (ret : Ret C) :
  configured self ->
  _original_dimension self <= length vec ->
  let n := _original_dimension self in
  let matrix := slice2 (_matrix self) n n in
  let vector := firstn n (_vector self) in
  let decoded_vector := firstn n vec in
  exists ret',
    _hhl_results self vec ret = Ok ret' /\
    output ret' = Some decoded_vector /\
    solution ret' = Some (rescaled matrix vector decoded_vector) /\
    shape0 matrix = n /\ shape1 matrix = n /\
    length vector = n /\ length decoded_vector = n /\
    length (rescaled matrix vector decoded_vector) = n.
Proof.
  intros Cf Lvec n matrix vector decoded_vector.
  destruct (hhl_results_configured vec ret Cf Lvec) as (ret' & E & O & S & _).
  destruct Cf as (d & Sq & Lv & Le).
  destruct (resize_matrix_configured self Sq Le) as (_ & E0 & E1).
  assert (Ld : length decoded_vector = n).
  { unfold decoded_vector. rewrite length_firstn. lia. }
  exists ret'. repeat (split; [assumption|]).
  split; [|split].
  - unfold vector. rewrite length_firstn. lia.
  - exact Ld.
  - unfold rescaled. now rewrite length_map.
Qed.

Variable sv_to_resvec : list C -> nat -> list C.

(** C5: in the statevector strategy the reported probability is the real
    part of the inner product of the truncated decoded vector with itself,
    taken from the decoded vector as the reciprocal engine returned it; the
    decoded vector is then divided by its own norm, and the output and the
    rescaled solution come from that normalised vector. *)
Theorem statevector_probability_then_normalise (self : HHL C) (sv : list C) (ret : Ret C) :
  configured self ->
  _original_dimension self <= length (sv_to_resvec sv (_num_q self)) ->
  let n := _original_dimension self in
  let vec := sv_to_resvec sv (_num_q self) in
  let t := firstn n vec in
  let normalised := map (fun x => np_div x (np_norm vec)) vec in
  exists ret',
    _statevector_simulation sv_to_resvec self sv ret = Ok ret' /\
    probability_result ret' = Some (np_real (sum_of_products t (map np_conj t))) /\
    output ret' = Some (firstn n normalised) /\
    solution ret' =
      Some (rescaled (slice2 (_matrix self) n n) (firstn n (_vector self))
                     (firstn n normalised)).
Proof.
  intros Cf Lvec n vec t normalised.
  assert (Ln : _original_dimension self <= length normalised).
  { unfold normalised. now rewrite length_map. }
  set (ret1 := {| probability_result := Some (np_real (sum_of_products t (map np_conj t)));
                  output := output ret; solution := solution ret |}).
  destruct (hhl_results_configured normalised ret1 Cf Ln) as (ret' & E & O & S & P).
  exists ret'. split; [|split; [|split]]; auto.
  unfold _statevector_simulation, dot1, _resize_vector.
  fold vec. fold n. fold t. rewrite length_map, Nat.eqb_refl. cbn [rbind].
  exact E.
Qed.

End RescaleFacts.

Lemma hhl_results_rescaled_witness :
  exists ret',
    _hhl_results sample_problem sample_decoded empty_ret = Ok ret' /\
    output ret' = Some (firstn 2 sample_decoded) /\
    solution ret' =
      Some (rescaled (slice2 (_matrix sample_problem) 2 2)
                     (firstn 2 (_vector sample_problem)) (firstn 2 sample_decoded)) /\
    shape0 (slice2 (_matrix sample_problem) 2 2) = 2 /\
    shape1 (slice2 (_matrix sample_problem) 2 2) = 2 /\
    length (firstn 2 (_vector sample_problem)) = 2 /\
    length (firstn 2 sample_decoded) = 2 /\
    length (rescaled (slice2 (_matrix sample_problem) 2 2)
                     (firstn 2 (_vector sample_problem)) (firstn 2 sample_decoded)) = 2.
Proof.
  apply (@hhl_results_rescaled term _ sample_problem sample_decoded empty_ret).
  - exists 3. unfold square, wf, shape0. simpl.
    repeat split; try lia. repeat constructor.
  - simpl. lia.
Defined.

Lemma statevector_probability_then_normalise_witness :
  exists ret',
    _statevector_simulation (fun sv _ => sv) sample_problem sample_decoded empty_ret = Ok ret' /\
    probability_result ret' =
      Some (np_real (sum_of_products (firstn 2 sample_decoded)
                                     (map np_conj (firstn 2 sample_decoded)))) /\
    output ret' =
      Some (firstn 2 (map (fun x => np_div x (np_norm sample_decoded)) sample_decoded)) /\
    solution ret' =
      Some (rescaled (slice2 (_matrix sample_problem) 2 2) (firstn 2 (_vector sample_problem))
                     (firstn 2 (map (fun x => np_div x (np_norm sample_decoded))
                                    sample_decoded))).
Proof.
  apply (@statevector_probability_then_normalise term _ (fun sv _ => sv)
           sample_problem sample_decoded empty_ret).
  - exists 3. unfold square, wf, shape0. simpl.
    repeat split; try lia. repeat constructor.
  - simpl. lia.
Defined.

End RescaleFacts.
(** * More facts about arrays *)

Module ArraysMore.
Section ArraysMore.
Context {C : Type} {ZC : Zero C}.

Lemma entry_slice2 (a : ndarray C) n m i k :
  i < n -> k < m -> entry (slice2 a n m) i k = entry a i k.
Proof.
  intros Hi Hk. unfold entry, slice2. cbn [rows].
  replace (nth i (map (firstn m) (firstn n (rows a))) [])
    with (nth i (map (firstn m) (firstn n (rows a))) (firstn m []))
    by (now rewrite firstn_nil).
  rewrite (map_nth (firstn m)), !nth_firstn.
  destruct (Nat.ltb_spec i n), (Nat.ltb_spec k m); try lia. reflexivity.
Qed.

(** [a[:n, :m]] is the top-left block when it lies within the array. *)
Lemma slice2_block (a : ndarray C) n m :
  wf a -> n <= shape0 a -> m <= shape1 a -> slice2 a n m = block a 0 n 0 m.
Proof.
  intros W Hn Hm.
  assert (Ws : wf (slice2 a n m)).
  { unfold wf, slice2 in *. cbn [rows shape1]. apply List.Forall_forall.
    intros row Hrow. apply List.in_map_iff in Hrow. destruct Hrow as (row' & <- & I).
    rewrite List.Forall_forall in W. rewrite length_firstn, (W row'); [reflexivity|].
    rewrite <- (firstn_skipn n (rows a)). apply List.in_or_app. now left. }
  rewrite <- (mk_matrix_entry Ws).
  replace (shape0 (slice2 a n m)) with n
    by (unfold shape0, slice2; cbn [rows]; rewrite length_map, length_firstn;
        unfold shape0 in Hn; lia).
  replace (shape1 (slice2 a n m)) with m by (cbn [slice2 shape1]; lia).
  unfold block. rewrite !Nat.sub_0_r. apply mk_matrix_ext.
  intros i k Hi Hk. now rewrite entry_slice2.
Qed.
End ArraysMore.
End ArraysMore.
Import ArraysMore.

(** * More facts about [init_params] *)

Module PreMore.
Import Pre PreInputs PreSteps MoreInputs PreFacts.

(** ** The power-of-two test *)

Lemma log2_integral_pow2 k : log2_integral (2 ^ k) = true.
Proof.
  unfold log2_integral. rewrite Nat.log2_pow2 by lia. apply Nat.eqb_refl.
Qed.

Lemma log2_integral_zero : log2_integral 0 = false.
Proof. reflexivity. Qed.

Lemma log2_integral_pos n : log2_integral n = true -> 0 < n.
Proof.
  destruct n; [discriminate|lia].
Qed.

(** Doubling keeps the answer of the test: the flag computed on line 166
    still describes the matrix after lines 171-177 doubled it. *)
Lemma log2_integral_double d : log2_integral (2 * d) = log2_integral d.
Proof.
  destruct d as [|d]; [reflexivity|].
  unfold log2_integral. rewrite Nat.log2_double by lia.
  rewrite Nat.pow_succ_r'.
  destruct (Nat.eqb_spec (S d) (2 ^ Nat.log2 (S d))) as [E|N].
  - apply Nat.eqb_eq. lia.
  - apply Nat.eqb_neq. lia.
Qed.

(** ** The Hermitian test *)

Lemma allclose_intro a b :
  (forall i k, i < shape0 a -> k < shape1 a -> isclose (entry a i k) (entry b i k) = true) ->
  allclose a b = true.
Proof.
  intros E. unfold allclose. apply forallb_forall. intros i Hi. apply in_seq in Hi.
  apply forallb_forall. intros k Hk. apply in_seq in Hk. apply E; lia.
Qed.

Lemma allclose_elim a b i k :
  allclose a b = true -> i < shape0 a -> k < shape1 a ->
  isclose (entry a i k) (entry b i k) = true.
Proof.
  unfold allclose. intros E Hi Hk.
  rewrite forallb_forall in E. specialize (E i). rewrite forallb_forall in E.
  apply E; apply in_seq; lia.
Qed.

(** ** The resize step *)

Lemma resize_empty (M : ndarray complex) v :
  shape0 M = 0 -> resize M v = Raise OverflowError.
Proof. intros E. unfold resize, ceil_log2. now rewrite E. Qed.

Lemma resize_nonempty (M : ndarray complex) v :
  0 < shape0 M ->
  exists M' v', resize M v = Ok (M', v') /\
    shape0 M' = 2 ^ Nat.log2_up (shape0 M) /\
    shape1 M' = 2 ^ Nat.log2_up (shape0 M) /\
    wf M' /\
    length v' = 2 ^ Nat.log2_up (shape0 M) /\
    (forall i k, i < 2 ^ Nat.log2_up (shape0 M) -> k < 2 ^ Nat.log2_up (shape0 M) ->
       entry M' i k =
         if (i <? shape0 M) && (k <? shape0 M) then entry M i k
         else if i =? k then one else zero).
Proof.
  intros Hd. eexists. eexists. split.
  { unfold resize, ceil_log2. destruct (Nat.eqb_spec (shape0 M) 0); [lia|]. simpl. reflexivity. }
  set (n := 2 ^ Nat.log2_up (shape0 M)).
  assert (I0 : shape0 (identity n) = n) by apply shape0_mk_matrix.
  split; [|split; [|split; [|split]]].
  - now rewrite shape0_set_block.
  - reflexivity.
  - apply wf_set_block.
  - now rewrite set_slice_length, repeat_length.
  - intros i k Hi Hk.
    rewrite entry_set_block by (rewrite ?I0; simpl; lia).
    rewrite entry_identity by lia. simpl. rewrite !Nat.sub_0_r, andb_true_r. reflexivity.
Qed.

(** Padding with the identity keeps a matrix within the tolerance of its
    conjugate transpose. *)
Lemma resize_keeps_allclose (M : ndarray complex) v M' v' :
  shape1 M = shape0 M -> allclose M (H M) = true ->
  resize M v = Ok (M', v') -> allclose M' (H M') = true.
Proof.
  intros Sq Her R.
  destruct (Nat.eq_dec (shape0 M) 0) as [Z|NZ].
  { rewrite (@resize_empty M v Z) in R. discriminate. }
  destruct (@resize_nonempty M v) as (M1 & v1 & R1 & S0 & S1 & _ & _ & E); [lia|].
  rewrite R in R1. inversion R1; subst M1 v1. clear R1.
  apply allclose_intro. intros i k Hi Hk. rewrite S0 in Hi. rewrite S1 in Hk.
  rewrite entry_H by (rewrite ?S0, ?S1; lia).
  rewrite !E by lia.
  destruct (Nat.ltb_spec i (shape0 M)), (Nat.ltb_spec k (shape0 M)); simpl.
  - rewrite <- (@entry_H M i k) by lia. apply allclose_elim; auto; lia.
  - destruct (Nat.eqb_spec i k), (Nat.eqb_spec k i); try lia; apply isclose_refl.
  - destruct (Nat.eqb_spec i k), (Nat.eqb_spec k i); try lia; apply isclose_refl.
  - destruct (Nat.eqb_spec i k), (Nat.eqb_spec k i); try lia; apply isclose_refl.
Qed.


(** ** The two expansions together *)

Lemma expand_after_hermitian A b auto_hermitian auto_resize :
  expand A b auto_hermitian auto_resize =
    if auto_resize && negb (log2_integral (shape0 A))
    then resize (fst (after_hermitian A b auto_hermitian))
                (snd (after_hermitian A b auto_hermitian))
    else Ok (after_hermitian A b auto_hermitian).
Proof.
  unfold expand, after_hermitian.
  destruct (auto_hermitian && negb (allclose A (H A))).
  - now destruct (expand_hermitian A b).
  - reflexivity.
Qed.

Lemma after_hermitian_facts A b auto_hermitian :
  wf A -> shape1 A = shape0 A -> length b = shape0 A ->
  let A1 := fst (after_hermitian A b auto_hermitian) in
  let b1 := snd (after_hermitian A b auto_hermitian) in
  shape1 A1 = shape0 A1 /\ wf A1 /\ length b1 = shape0 A1 /\
  (shape0 A1 = shape0 A \/ shape0 A1 = 2 * shape0 A) /\
  (auto_hermitian = true -> allclose A1 (H A1) = true).
Proof.
  intros W Sq L. unfold after_hermitian.
  destruct (allclose A (H A)) eqn:Her; destruct auto_hermitian; cbn [andb negb fst snd];
    try (repeat split; auto; congruence).
  assert (S : square (shape0 A) A) by (unfold square; auto).
  split; [|split; [|split; [|split]]].
  - rewrite expand_hermitian_shape0. reflexivity.
  - apply expand_hermitian_wf.
  - rewrite expand_hermitian_vector by auto.
    rewrite expand_hermitian_shape0, length_app, length_map. lia.
  - right. apply expand_hermitian_shape0.
  - intros _. apply self_adjoint_allclose.
    now apply expand_hermitian_self_adjoint with (d := shape0 A).
Qed.

Lemma after_hermitian_size A b auto_hermitian :
  log2_integral (shape0 (fst (after_hermitian A b auto_hermitian))) =
  log2_integral (shape0 A).
Proof.
  unfold after_hermitian.
  destruct (auto_hermitian && negb (allclose A (H A))); [|reflexivity].
  rewrite expand_hermitian_shape0. apply log2_integral_double.
Qed.

Lemma expand_raises_overflow_only A b auto_hermitian auto_resize e :
  expand A b auto_hermitian auto_resize = Raise e -> e = OverflowError.
Proof.
  rewrite expand_after_hermitian.
  destruct (auto_resize && negb (log2_integral (shape0 A))); [|discriminate].
  unfold resize, ceil_log2.
  destruct (shape0 (fst (after_hermitian A b auto_hermitian)) =? 0); simpl; congruence.
Qed.

Lemma expand_power_of_two A b auto_hermitian M v :
  expand A b auto_hermitian true = Ok (M, v) -> log2_integral (shape0 M) = true.
Proof.
  rewrite expand_after_hermitian. simpl.
  destruct (log2_integral (shape0 A)) eqn:P; simpl.
  - intros E. inversion E as [E'].
    rewrite <- (after_hermitian_size A b auto_hermitian) in P.
    now rewrite E' in P.
  - intros R.
    destruct (Nat.eq_dec (shape0 (fst (after_hermitian A b auto_hermitian))) 0) as [Z|NZ].
    { rewrite (@resize_empty _ _ Z) in R. discriminate. }
    destruct (@resize_nonempty (fst (after_hermitian A b auto_hermitian))
                (snd (after_hermitian A b auto_hermitian)))
      as (M1 & v1 & R1 & S0 & _); [lia|].
    rewrite R in R1. inversion R1; subst. rewrite S0. apply log2_integral_pow2.
Qed.

Lemma expand_shapes A b auto_hermitian auto_resize M v :
  wf A -> shape1 A = shape0 A -> length b = shape0 A ->
  expand A b auto_hermitian auto_resize = Ok (M, v) ->
  shape1 M = shape0 M /\ wf M /\ length v = shape0 M /\
  shape0 A <= shape0 M /\ shape0 M <= 4 * shape0 A /\
  (auto_hermitian = true -> allclose M (H M) = true).
Proof.
  intros W Sq L.
  destruct (@after_hermitian_facts A b auto_hermitian W Sq L) as (S1 & W1 & L1 & D1 & H1).
  rewrite expand_after_hermitian.
  destruct (auto_resize && negb (log2_integral (shape0 A))).
  - intros R.
    destruct (Nat.eq_dec (shape0 (fst (after_hermitian A b auto_hermitian))) 0) as [Z|NZ].
    { rewrite (@resize_empty _ _ Z) in R. discriminate. }
    destruct (@resize_nonempty (fst (after_hermitian A b auto_hermitian))
                (snd (after_hermitian A b auto_hermitian)))
      as (M1 & v1 & R1 & E0 & E1 & WM & LV & _); [lia|].
    assert (K := R). rewrite R1 in K. inversion K; subst M1 v1. clear K.
    destruct (@next_power_of_two (shape0 (fst (after_hermitian A b auto_hermitian))))
      as [Lo Hi]; [lia|].
    repeat split; try congruence; try lia.
    intros Ha. eapply resize_keeps_allclose; eauto.
  - intros E. inversion E as [E']. rewrite E' in *. cbn [fst snd] in *.
    repeat split; auto; try lia.
Qed.

Lemma expand_total A b auto_hermitian auto_resize :
  0 < shape0 A -> exists M v, expand A b auto_hermitian auto_resize = Ok (M, v).
Proof.
  intros Hd. rewrite expand_after_hermitian.
  destruct (auto_resize && negb (log2_integral (shape0 A))).
  - destruct (@resize_nonempty (fst (after_hermitian A b auto_hermitian))
                (snd (after_hermitian A b auto_hermitian)))
      as (M1 & v1 & R1 & _); [|eauto].
    unfold after_hermitian.
    destruct (auto_hermitian && negb (allclose A (H A))); cbn [fst]; [|lia].
    rewrite expand_hermitian_shape0. lia.
  - destruct (after_hermitian A b auto_hermitian) as [M v]. eauto.
Qed.


(** ** What a successful call returns *)

(** X1: whenever [init_params] returns, the problem it returns is valid: the
    matrix is square and within tolerance of its conjugate transpose, its
    dimension [n] is a power of two, the vector has [n] entries, and the
    recorded original dimension is the length of the input vector, at least
    1, at most [n], with [n] at most four times as large. *)
Theorem init_params_valid_problem inp auto_hermitian auto_resize h :
  wf (matrix inp) ->
  init_params (Some inp) auto_hermitian auto_resize = Ok h ->
  let n := shape0 (_matrix h) in
  square n (_matrix h) /\
  length (_vector h) = n /\
  allclose (_matrix h) (H (_matrix h)) = true /\
  log2_integral n = true /\
  _original_dimension h = length (vector inp) /\
  0 < _original_dimension h /\
  _original_dimension h <= n /\
  n <= 4 * _original_dimension h.
Proof.
  intros W. unfold init_params.
  destruct (Nat.eqb_spec (shape0 (matrix inp)) (length (vector inp))) as [L|]; [|discriminate].
  destruct (Nat.eqb_spec (shape0 (matrix inp)) (shape1 (matrix inp))) as [Sq|]; [|discriminate].
  cbn [negb].
  destruct (expand (matrix inp) (vector inp) auto_hermitian auto_resize)
    as [[M v]|e] eqn:E; [|discriminate].
  cbn [rbind]. unfold revalidate.
  destruct (allclose M (H M)) eqn:Her; [|discriminate].
  destruct (log2_integral (shape0 M)) eqn:P2; [|discriminate].
  cbn [negb rbind]. intros K. inversion K; subst h. clear K. cbn.
  destruct (@expand_shapes _ _ _ _ _ _ W (eq_sym Sq) (eq_sym L) E)
    as (S1 & WM & LV & Lo & Hi & _).
  assert (Pn := log2_integral_pos _ P2).
  unfold square. repeat split; auto; lia.
Qed.

Lemma init_params_valid_problem_witness :
  square 4 (_matrix problem_I3_resized) /\
  length (_vector problem_I3_resized) = 4 /\
  allclose (_matrix problem_I3_resized) (H (_matrix problem_I3_resized)) = true /\
  log2_integral 4 = true /\
  _original_dimension problem_I3_resized = length b_3 /\
  0 < _original_dimension problem_I3_resized /\
  _original_dimension problem_I3_resized <= 4 /\
  4 <= 4 * _original_dimension problem_I3_resized.
Proof.
  apply (@init_params_valid_problem {| matrix := I3; vector := b_3 |} false true
           problem_I3_resized).
  - repeat constructor.
  - vm_compute. reflexivity.
Defined.

(** ** What each flag rules out *)

(** X2: with auto_hermitian set, [init_params] never fails with the
    "not hermitian" error: a matrix outside the tolerance is replaced by
    one that equals its conjugate transpose, and padding keeps that. *)
Theorem auto_hermitian_never_not_hermitian inp auto_resize :
  wf (matrix inp) ->
  init_params (Some inp) true auto_resize <> Raise NotHermitian.
Proof.
  intros W. unfold init_params.
  destruct (Nat.eqb_spec (shape0 (matrix inp)) (length (vector inp))) as [L|]; [|discriminate].
  destruct (Nat.eqb_spec (shape0 (matrix inp)) (shape1 (matrix inp))) as [Sq|]; [|discriminate].
  cbn [negb].
  destruct (expand (matrix inp) (vector inp) true auto_resize) as [[M v]|e] eqn:E.
  - destruct (@expand_shapes _ _ _ _ _ _ W (eq_sym Sq) (eq_sym L) E)
      as (_ & _ & _ & _ & _ & Her).
    cbn [rbind]. unfold revalidate. rewrite (Her eq_refl). cbn [negb].
    destruct (log2_integral (shape0 M)); cbn; discriminate.
  - apply expand_raises_overflow_only in E. subst e. cbn. discriminate.
Qed.

Lemma auto_hermitian_never_not_hermitian_witness :
  init_params (Some {| matrix := A3_nh; vector := b_3 |}) true false <> Raise NotHermitian.
Proof.
  apply (@auto_hermitian_never_not_hermitian {| matrix := A3_nh; vector := b_3 |} false).
  repeat constructor.
Defined.

(** X3: with auto_resize set, [init_params] never fails with the
    "dimension must be 2**n" error, whatever auto_hermitian is: the test
    made before the Hermitian step still decides correctly after it. *)
Theorem auto_resize_never_invalid_dimension inp auto_hermitian :
  init_params (Some inp) auto_hermitian true <> Raise InvalidDimension.
Proof.
  unfold init_params.
  destruct (Nat.eqb_spec (shape0 (matrix inp)) (length (vector inp))) as [L|]; [|discriminate].
  destruct (Nat.eqb_spec (shape0 (matrix inp)) (shape1 (matrix inp))) as [Sq|]; [|discriminate].
  cbn [negb].
  destruct (expand (matrix inp) (vector inp) auto_hermitian true) as [[M v]|e] eqn:E.
  - apply expand_power_of_two in E.
    cbn [rbind]. unfold revalidate. rewrite E.
    destruct (allclose M (H M)); cbn; discriminate.
  - apply expand_raises_overflow_only in E. subst e. cbn. discriminate.
Qed.

(** X5: a matrix with no rows and no columns, with an empty vector, is
    rejected under every setting of auto_hermitian: by the overflow of
    [int(ceil(log2(0)))] when auto_resize is set, as a dimension that is not
    a power of two when it is not. *)
Theorem empty_matrix_rejected (m : ndarray complex) auto_hermitian auto_resize :
  rows m = [] -> shape1 m = 0 ->
  init_params (Some {| matrix := m; vector := [] |}) auto_hermitian auto_resize =
    Raise (if auto_resize then OverflowError else InvalidDimension).
Proof.
  intros R S. unfold init_params. cbn [matrix vector].
  assert (S0 : shape0 m = 0) by (unfold shape0; now rewrite R).
  rewrite S0, S. cbn [length Nat.eqb negb].
  assert (Her : allclose m (H m) = true).
  { apply allclose_intro. intros i k Hi. lia. }
  rewrite expand_after_hermitian. unfold after_hermitian.
  rewrite Her, S0, andb_false_r. cbn [negb fst snd log2_integral].
  destruct auto_resize; cbn [andb].
  - change (negb (log2_integral 0)) with true. cbn iota.
    rewrite (@resize_empty m [] S0). reflexivity.
  - cbn [rbind]. unfold revalidate. rewrite Her, S0. reflexivity.
Qed.

Lemma empty_matrix_rejected_witness :
  init_params (Some {| matrix := M_empty; vector := [] |}) true true = Raise OverflowError /\
  init_params (Some {| matrix := M_empty; vector := [] |}) true false = Raise InvalidDimension.
Proof.
  split.
  - apply (@empty_matrix_rejected M_empty true true); reflexivity.
  - apply (@empty_matrix_rejected M_empty true false); reflexivity.
Defined.


End PreMore.
(** * More facts about [construct_circuit] *)

Module ComposeMore.
Import Compose.

Lemma qreg_eqb_eq a b : qreg_eqb a b = true <-> a = b.
Proof.
  destruct a as [sa na], b as [sb nb]. unfold qreg_eqb. simpl.
  rewrite andb_true_iff, Nat.eqb_eq, String.eqb_eq.
  split; [intros [-> ->]; reflexivity|intros E; inversion E; auto].
Qed.

Lemma in_missing_qregs old new r :
  In r (missing qreg_eqb old new) <-> In r new /\ ~ In r old.
Proof.
  unfold missing. rewrite List.filter_In, negb_true_iff.
  split; intros [I N]; split; auto.
  - intros Io. assert (X : existsb (qreg_eqb r) old = true).
    { apply List.existsb_exists. exists r. split; [exact Io|now apply qreg_eqb_eq]. }
    congruence.
  - destruct (existsb (qreg_eqb r) old) eqn:X; [|reflexivity].
    apply List.existsb_exists in X. destruct X as (r' & Ir & E).
    apply qreg_eqb_eq in E. subst r'. contradiction.
Qed.

(** [qc += rhs] keeps the registers distinct and adds every register of
    [rhs]. *)
Lemma iadd_qregs qc rhs :
  List.NoDup (qregs qc) -> List.NoDup (qregs rhs) ->
  List.NoDup (qregs (iadd qc rhs)) /\
  (forall r, In r (qregs (iadd qc rhs)) <-> In r (qregs qc) \/ In r (qregs rhs)).
Proof.
  intros N1 N2. unfold iadd. cbn [qregs]. split.
  - apply List.NoDup_app; [exact N1| |].
    + unfold missing. now apply List.NoDup_filter.
    + intros r I1 I2. apply in_missing_qregs in I2. tauto.
  - intros r. rewrite List.in_app_iff, in_missing_qregs.
    destruct (List.in_dec (fun a b =>
      match Bool.bool_dec (qreg_eqb a b) true with
      | left E => left (proj1 (qreg_eqb_eq a b) E)
      | right N => right (fun E => N (proj2 (qreg_eqb_eq a b) E))
      end) r (qregs qc)); tauto.
Qed.

Section Engines.
Variables InitialState Eigenvalues Reciprocal : Type.
Variable init_state_build : InitialState -> QuantumRegister -> QuantumCircuit.
Variable eigs_build_forward :
  Eigenvalues -> QuantumRegister -> QuantumCircuit * QuantumRegister.
Variable eigs_build_inverse :
  Eigenvalues -> QuantumCircuit -> QuantumRegister -> QuantumRegister -> QuantumCircuit.
Variable reciprocal_build :
  Reciprocal -> QuantumRegister -> QuantumCircuit * QuantumRegister.

Abbreviation construct :=
  (construct_circuit init_state_build eigs_build_forward eigs_build_inverse
                     reciprocal_build).

(** X21: the circuit is the four sub-circuits in the order state
    preparation, forward eigenvalue estimation, reciprocal rotation, inverse
    eigenvalue estimation, followed by the measurement of the ancilla when
    it is asked for.  The inverse is built from the very circuit and
    registers of the forward step, and the rotation acts on the register
    that the forward step returned.  The call records the io register, that
    register, the ancilla and the circuit. *)
Theorem construct_circuit_order (h : HHL InitialState Eigenvalues Reciprocal) measurement :
  let q := QReg (_num_q h) "io" in
  let prepare := init_state_build (_init_state h) q in
  let forward := eigs_build_forward (eigs_config (_eigs h)) q in
  let rotate := reciprocal_build (reciprocal_config (_reciprocal h)) (snd forward) in
  let inverse := eigs_build_inverse (eigs_config (_eigs h)) (fst forward) q (snd forward) in
  exists qc h1,
    construct h measurement = Ok (qc, h1) /\
    data qc = data prepare ++ data (fst forward) ++ data (fst rotate) ++ data inverse ++
              (if measurement then [Measure (snd rotate) (CReg 1)] else []) /\
    hd_error (qregs qc) = Some q /\
    _circuit h1 = Some qc /\
    _io_register h1 = Some q /\
    _eigenvalue_register h1 = Some (snd forward) /\
    _ancilla_register h1 = Some (snd rotate).
Proof.
  intros q prepare forward rotate inverse.
  eexists. eexists. split; [reflexivity|].
  cbn [_circuit _io_register _eigenvalue_register _ancilla_register].
  split; [|split; [|auto]].
  - destruct measurement; cbn [measure add_register iadd new_circuit data app];
      rewrite <- ?List.app_assoc; rewrite ?app_nil_r; reflexivity.
  - destruct measurement; reflexivity.
Qed.

(** X22: asking for the measurement changes the circuit by one classical
    register of one bit and one instruction at the end, the measurement of
    the ancilla; the quantum registers are the same.  With the flag the
    success bit is recorded; without it the attribute is left as it was. *)
Theorem construct_circuit_measurement (h : HHL InitialState Eigenvalues Reciprocal) :
  exists qc h0 qc' h1,
    construct h false = Ok (qc, h0) /\
    construct h true = Ok (qc', h1) /\
    qregs qc' = qregs qc /\
    cregs qc' = cregs qc ++ [CReg 1] /\
    (exists s, _ancilla_register h1 = Some s /\ data qc' = data qc ++ [Measure s (CReg 1)]) /\
    _success_bit h1 = Some (CReg 1) /\
    _success_bit h0 = _success_bit h.
Proof.
  eexists. eexists. eexists. eexists.
  split; [reflexivity|]. split; [reflexivity|].
  cbn [_success_bit _ancilla_register].
  repeat split. eexists. split; reflexivity.
Qed.

(** X23: register bookkeeping.  When each of the four sub-circuits lists
    its quantum registers without repetition, so does the composed circuit,
    and its registers are the io register and the registers of the
    sub-circuits, nothing else. *)
Theorem construct_circuit_registers (h : HHL InitialState Eigenvalues Reciprocal) measurement :
  let q := QReg (_num_q h) "io" in
  let prepare := init_state_build (_init_state h) q in
  let forward := eigs_build_forward (eigs_config (_eigs h)) q in
  let rotate := reciprocal_build (reciprocal_config (_reciprocal h)) (snd forward) in
  let inverse := eigs_build_inverse (eigs_config (_eigs h)) (fst forward) q (snd forward) in
  List.NoDup (qregs prepare) -> List.NoDup (qregs (fst forward)) ->
  List.NoDup (qregs (fst rotate)) -> List.NoDup (qregs inverse) ->
  exists qc h1,
    construct h measurement = Ok (qc, h1) /\
    List.NoDup (qregs qc) /\
    forall r, In r (qregs qc) <->
      r = q \/ In r (qregs prepare) \/ In r (qregs (fst forward)) \/
      In r (qregs (fst rotate)) \/ In r (qregs inverse).
Proof.
  intros q prepare forward rotate inverse N1 N2 N3 N4.
  assert (N0 : List.NoDup (qregs (new_circuit q))).
  { cbn. constructor; [intros []|constructor]. }
  destruct (iadd_qregs (new_circuit q) prepare N0 N1) as [Na Ia].
  destruct (iadd_qregs _ (fst forward) Na N2) as [Nb Ib].
  destruct (iadd_qregs _ (fst rotate) Nb N3) as [Nc Ic].
  destruct (iadd_qregs _ inverse Nc N4) as [Nd Id].
  set (base := iadd (iadd (iadd (iadd (new_circuit q) prepare) (fst forward)) (fst rotate))
                    inverse) in *.
  exists (if measurement
          then measure (add_register base (CReg 1)) (snd rotate) (CReg 1)
          else base).
  eexists. split; [reflexivity|].
  assert (Q : qregs (if measurement
                     then measure (add_register base (CReg 1)) (snd rotate) (CReg 1)
                     else base) = qregs base) by (destruct measurement; reflexivity).
  rewrite Q. split; [exact Nd|].
  intros r. rewrite Id, Ic, Ib, Ia. cbn [new_circuit qregs In]. intuition.
Qed.

End Engines.

Lemma construct_circuit_registers_witness :
  exists qc h1,
    construct_circuit sample_init sample_forward sample_inverse sample_reciprocal
      (sample_hhl None) true = Ok (qc, h1) /\
    List.NoDup (qregs qc) /\
    forall r, In r (qregs qc) <->
      r = QReg 1 "io" \/
      In r (qregs (sample_init [1; 0]%Z (QReg 1 "io"))) \/
      In r (qregs (fst (sample_forward 3 (QReg 1 "io")))) \/
      In r (qregs (fst (sample_reciprocal 5 (snd (sample_forward 3 (QReg 1 "io")))))) \/
      In r (qregs (sample_inverse 3 (fst (sample_forward 3 (QReg 1 "io"))) (QReg 1 "io")
                     (snd (sample_forward 3 (QReg 1 "io"))))).
Proof.
  apply (@construct_circuit_registers _ _ _ sample_init sample_forward sample_inverse
           sample_reciprocal (sample_hhl None) true).
  - repeat constructor; simpl; intuition discriminate.
  - repeat constructor; simpl; intuition discriminate.
  - repeat constructor; simpl; intuition discriminate.
  - repeat constructor; simpl; intuition discriminate.
Defined.

End ComposeMore.
(** * More facts about the count loops *)

Module TomoMore.
Import Tomo MoreTables TomoFacts.
Local Open Scope Z_scope.

(** ** The ratio loop *)

Lemma success_ratio_cases (cts : counts) :
  nonempty_keys cts ->
  success_ratio cts =
    if total cts =? 0 then Raise ZeroDivisionError
    else Ok (inject_Z (total (success_counts cts)) / inject_Z (total cts))%Q.
Proof.
  intros NE. unfold success_ratio. rewrite (success_failure_totals NE). cbn [rbind fst snd].
  rewrite (Z.add_comm (total (failure_counts cts))), total_partition. reflexivity.
Qed.

(** X13: a table whose counts add up to zero, the empty table among them,
    makes the ratio loop fail with a division by zero, wherever it stands
    among the tables of the batch. *)
Theorem probability_result_zero_total original_dimension (tables : list counts) :
  Forall nonempty_keys tables ->
  Exists (fun cts => total cts = 0) tables ->
  probability_result original_dimension tables = Raise ZeroDivisionError.
Proof.
  intros NE Ex. unfold probability_result.
  enough (G : forall acc, for_each tables (fun cts probs =>
                 let* p := success_ratio cts in Ok (probs ++ [p])) acc
               = Raise ZeroDivisionError) by now rewrite G.
  induction Ex as [cts rest Z|cts rest Ex IH]; intros acc;
    inversion NE as [|? ? NE1 NE2]; subst; cbn [for_each].
  - rewrite (success_ratio_cases NE1), Z. reflexivity.
  - rewrite (success_ratio_cases NE1).
    destruct (total cts =? 0); [reflexivity|]. cbn [rbind]. apply IH. exact NE2.
Qed.

Lemma probability_result_zero_total_witness :
  probability_result 2 [table1; table_zero; table1] = Raise ZeroDivisionError.
Proof.
  apply (@probability_result_zero_total 2 [table1; table_zero; table1]).
  - repeat constructor; discriminate.
  - right. left. reflexivity.
Defined.

(** X14: an empty key in a table makes the split into success and failure
    fail with an index error ([k[0]] on the empty string), and the ratio
    with it. *)
Theorem success_failure_empty_key (cts : counts) :
  In EmptyString (map fst cts) ->
  success_failure cts = Raise IndexError /\ success_ratio cts = Raise IndexError.
Proof.
  intros I.
  enough (G : forall sf, for_each cts (fun kv sf =>
                 let* one := starts_with_one (fst kv) in
                 if one then Ok (fst sf + snd kv, snd sf) else Ok (fst sf, snd sf + snd kv))
                 sf = Raise IndexError).
  { unfold success_ratio, success_failure. rewrite G. split; reflexivity. }
  induction cts as [|[k v] cts IH]; intros sf; [contradiction|].
  cbn [for_each fst snd]. destruct k as [|c k]; [reflexivity|].
  cbn [starts_with_one rbind].
  destruct I as [E|I]; [discriminate|].
  destruct (Ascii.eqb c "1"); cbn [rbind]; apply IH; exact I.
Qed.

Lemma success_failure_empty_key_witness :
  success_failure [("1 0", 2); ("", 1)]%string = Raise IndexError /\
  success_ratio [("1 0", 2); ("", 1)]%string = Raise IndexError.
Proof.
  apply (@success_failure_empty_key [("1 0", 2); ("", 1)]%string).
  simpl. auto.
Defined.

(** X15: when every table of the batch has non-empty keys, non-negative
    counts and a positive total, the ratio loop reports, for each of the
    first [original_dimension] tables in order, the total of its entries
    with ancilla 1 divided by its total; every reported value lies between
    0 and 1. *)
Theorem probability_result_ratios original_dimension (tables : list counts) :
  Forall (fun cts => nonempty_keys cts /\ nonnegative cts /\ 0 < total cts) tables ->
  probability_result original_dimension tables =
    Ok (firstn original_dimension
          (map (fun cts => (inject_Z (total (success_counts cts)) / inject_Z (total cts))%Q)
               tables)) /\
  exists ps, probability_result original_dimension tables = Ok ps /\
             length ps = Nat.min original_dimension (length tables) /\
             Forall (fun p => (0 <= p)%Q /\ (p <= 1)%Q) ps.
Proof.
  intros Hall. split; [|now apply probability_result_in_unit_interval].
  unfold probability_result.
  enough (G : forall acc, for_each tables (fun cts probs =>
                 let* p := success_ratio cts in Ok (probs ++ [p])) acc
               = Ok (acc ++ map (fun cts =>
                       (inject_Z (total (success_counts cts)) / inject_Z (total cts))%Q)
                       tables)) by now rewrite G.
  induction Hall as [|cts rest (NE & _ & Pos) _ IH]; intros acc; cbn [for_each map].
  - now rewrite app_nil_r.
  - rewrite (success_ratio_cases NE).
    destruct (Z.eqb_spec (total cts) 0); [lia|]. cbn [rbind].
    rewrite IH, <- List.app_assoc. reflexivity.
Qed.

Lemma probability_result_ratios_witness :
  probability_result 1 [table1; table1] =
    Ok (firstn 1
          (map (fun cts => (inject_Z (total (success_counts cts)) / inject_Z (total cts))%Q)
               [table1; table1])) /\
  exists ps, probability_result 1 [table1; table1] = Ok ps /\
             length ps = Nat.min 1 (length [table1; table1]) /\
             Forall (fun p => (0 <= p)%Q /\ (p <= 1)%Q) ps.
Proof.
  apply (@probability_result_ratios 1 [table1; table1]).
  repeat constructor; try discriminate; simpl; lia.
Defined.

(** ** The selection of the success branch *)

Lemma total_postselected (cts : counts) :
  total (postselected_counts cts) = total (success_counts cts).
Proof.
  unfold postselected_counts. induction (success_counts cts) as [|[k v] l IH]; simpl; lia.
Qed.

Lemma wf_keys_nonempty (cts : counts) :
  Forall wf_key (map fst cts) -> nonempty_keys cts.
Proof.
  unfold nonempty_keys. rewrite !List.Forall_forall. intros W kv I.
  destruct (W (fst kv)) as (a & io & E & _).
  - apply List.in_map. exact I.
  - rewrite E. discriminate.
Qed.

Lemma postselected_lookup (cts : counts) io :
  Forall wf_key (map fst cts) ->
  dict_get (postselected_counts cts) io = dict_get cts (String "1" (String " " io)).
Proof.
  induction cts as [|[k v] cts IH]; intros W; [reflexivity|].
  inversion W as [|? ? (a & iok & E & _ & _) W']; subst.
  unfold postselected_counts, success_counts in *. cbn [List.filter fst snd ancilla_is_one].
  cbn [dict_get]. destruct (Ascii.eqb_spec a "1") as [->|Na].
  - cbn [map fst snd io_bits dict_get].
    destruct (String.eqb_spec iok io) as [->|Nio].
    + now rewrite String.eqb_refl.
    + destruct (String.eqb_spec (String "1" (String " " iok)) (String "1" (String " " io)))
        as [X|_]; [inversion X; contradiction|].
      apply IH. exact W'.
  - destruct (String.eqb_spec (String a (String " " iok)) (String "1" (String " " io)))
      as [X|_]; [inversion X; contradiction|].
    apply IH. exact W'.
Qed.

Lemma postselected_keys_distinct (cts : counts) :
  Forall wf_key (map fst cts) -> List.NoDup (map fst cts) ->
  List.NoDup (map fst (postselected_counts cts)).
Proof.
  induction cts as [|[k v] cts IH]; intros W ND; [constructor|].
  inversion W as [|? ? Wk W']; subst. apply List.NoDup_cons_iff in ND. destruct ND as [Nin ND].
  unfold postselected_counts, success_counts in *. cbn [List.filter fst].
  destruct (ancilla_is_one k) eqn:A; [|now apply IH].
  cbn [map fst]. constructor; [|now apply IH].
  intros I. apply in_postselected_keys in I. destruct I as (k' & Ik' & A' & Io').
  assert (Wk' : wf_key k') by (rewrite List.Forall_forall in W'; now apply W').
  apply success_key_io in A; [|exact Wk]. apply success_key_io in A'; [|exact Wk'].
  apply Nin. rewrite A, <- Io', <- A'. exact Ik'.
Qed.

(** X16: for a table with distinct keys of the form ancilla bit, space, io
    bits, the selection returns a table with distinct keys in which looking
    up any io bitstring gives what the input table holds under "1", a
    space and that bitstring: the count when there is such an entry,
    nothing otherwise. *)
Theorem select_success_lookup (cts : counts) :
  Forall wf_key (map fst cts) -> List.NoDup (map fst cts) ->
  exists t, select_success cts = Ok t /\
    List.NoDup (map fst t) /\
    forall io, dict_get t io = dict_get cts (String "1" (String " " io)).
Proof.
  intros W ND. exists (postselected_counts cts).
  split; [now apply select_success_spec|].
  split; [now apply postselected_keys_distinct|].
  intros io. now apply postselected_lookup.
Qed.

Lemma select_success_lookup_witness :
  exists t, select_success table1 = Ok t /\
    List.NoDup (map fst t) /\
    forall io, dict_get t io = dict_get table1 (String "1" (String " " io)).
Proof.
  apply (@select_success_lookup table1).
  - repeat constructor.
    + exists "1"%char, "01"%string. repeat split. discriminate.
    + exists "0"%char, "01"%string. repeat split. discriminate.
    + exists "1"%char, "10"%string. repeat split. discriminate.
  - repeat constructor; simpl; intuition discriminate.
Defined.

(** X17: the two loops agree on what success is: for a table with distinct
    keys of that form, the counts of the selected table add up to the
    success total of the ratio loop, and that total plus the failure total
    is the total of the input table. *)
Theorem select_success_total (cts : counts) :
  Forall wf_key (map fst cts) -> List.NoDup (map fst cts) ->
  exists t s f, select_success cts = Ok t /\
    success_failure cts = Ok (s, f) /\
    total t = s /\ total t + f = total cts.
Proof.
  intros W ND.
  exists (postselected_counts cts), (total (success_counts cts)), (total (failure_counts cts)).
  split; [now apply select_success_spec|].
  split; [apply success_failure_totals; now apply wf_keys_nonempty|].
  rewrite total_postselected. split; [reflexivity|apply total_partition].
Qed.

Lemma select_success_total_witness :
  exists t s f, select_success table1 = Ok t /\
    success_failure table1 = Ok (s, f) /\
    total t = s /\ total t + f = total table1.
Proof.
  apply (@select_success_total table1).
  - repeat constructor.
    + exists "1"%char, "01"%string. repeat split. discriminate.
    + exists "0"%char, "01"%string. repeat split. discriminate.
    + exists "1"%char, "10"%string. repeat split. discriminate.
  - repeat constructor; simpl; intuition discriminate.
Defined.


Lemma dict_get_is_some (d : counts) k :
  In k (map fst d) -> exists v, dict_get d k = Some v.
Proof.
  induction d as [|[k' v'] d IH]; simpl; [tauto|].
  intros [E|I].
  - subst. rewrite String.eqb_refl. eauto.
  - destruct (String.eqb k' k); eauto.
Qed.

(** X18: a key that is just "1" (an ancilla bit with no io register after
    it) makes the selection fail with an index error ([reg_bits[1]] on a
    list of one element), whatever the other entries are. *)
Theorem select_success_no_io_register (cts : counts) :
  In "1"%string (map fst cts) -> select_success cts = Raise IndexError.
Proof.
  intros I. unfold select_success.
  enough (G : forall ks acc,
             (forall k, In k ks -> In k (map fst cts)) -> In "1"%string ks ->
             for_each ks (fun reg_key new_counts =>
               let reg_bits := split " " reg_key in
               match reg_bits with
               | [] => Raise IndexError
               | bit :: rest =>
                   if String.eqb bit "1" then
                     match rest, dict_get cts reg_key with
                     | io :: _, Some v => Ok (dict_set new_counts io v)
                     | [], _ => Raise IndexError
                     | _, None => Raise KeyError
                     end
                   else Ok new_counts
               end) acc = Raise IndexError) by (apply G; auto).
  induction ks as [|k ks IH]; intros acc Sub In1; [contradiction|].
  cbn [for_each].
  destruct (String.eqb_spec k "1") as [->|Nk].
  - reflexivity.
  - assert (In1' : In "1"%string ks) by (destruct In1; [congruence|assumption]).
    assert (Sub' : forall k', In k' ks -> In k' (map fst cts)) by (intros; apply Sub; now right).
    destruct (dict_get_is_some cts k (Sub k (or_introl eq_refl))) as [v G].
    cbv zeta. destruct (split " " k) as [|bit rest]; [reflexivity|].
    destruct (String.eqb bit "1").
    + destruct rest as [|io rest]; [reflexivity|]. rewrite G. cbn [rbind]. now apply IH.
    + cbn [rbind]. now apply IH.
Qed.

Lemma select_success_no_io_register_witness :
  select_success table_no_io = Raise IndexError.
Proof.
  apply (@select_success_no_io_register table_no_io).
  simpl. auto.
Defined.

(** ** Postselection on any record *)

(** X19: whenever postselection returns, on any store and any record, the
    reference it returns was not allocated before and differs from the
    input reference; the input record and every other cell that existed
    hold what they held. *)
Theorem tomo_postselect_leaves_store (σ σ' : gmap nat (list experiment))
    results new_results :
  _tomo_postselect σ results = Ok (new_results, σ') ->
  exists r, σ !! results = Some r /\
    σ' !! results = Some r /\
    new_results <> results /\
    σ !! new_results = None /\
    forall k, k <> new_results -> σ' !! k = σ !! k.
Proof.
  intros E. destruct (@tomo_postselect_writes_copy_only _ _ _ _ E) as [F Fr].
  unfold _tomo_postselect, deepcopy, deref in E.
  destruct (σ !! results) as [r|] eqn:Hr; [|discriminate].
  assert (Ne : new_results <> results) by (intros ->; congruence).
  exists r. split; [reflexivity|]. split; [|auto].
  rewrite Fr by auto. exact Hr.
Qed.

Lemma tomo_postselect_leaves_store_witness :
  exists r, store1 !! 7%nat = Some r /\
    snd store1_after !! 7%nat = Some r /\
    fst store1_after <> 7%nat /\
    store1 !! fst store1_after = None /\
    forall k, k <> fst store1_after -> snd store1_after !! k = store1 !! k.
Proof.
  apply (@tomo_postselect_leaves_store store1 (snd store1_after) 7%nat (fst store1_after)).
  vm_compute. reflexivity.
Defined.

(** The rounds [a, a+n) of the loop of lines 339-358, when the entries they
    visit are well formed. *)
Lemma postselect_rounds_prefix (σ0 : gmap nat (list experiment)) results new_results r :
  forall n a,
  results <> new_results ->
  σ0 !! results = Some r ->
  (a + n <= length r)%nat ->
  (forall j e, (a <= j < a + n)%nat -> r !! j = Some e -> wf_experiment e) ->
  for_each (seq a n) (postselect_step results new_results)
    (<[new_results := map postselected (take a r) ++ drop a r]> σ0) =
  Ok (<[new_results := map postselected (take (a + n) r) ++ drop (a + n) r]> σ0).
Proof.
  induction n as [|n IH]; intros a Ne Hr L WF.
  - simpl. now rewrite Nat.add_0_r.
  - assert (La : (a < length r)%nat) by lia.
    destruct (lookup_lt_is_Some_2 r a La) as [e He].
    assert (We : wf_experiment e) by (apply (WF a); [lia|exact He]).
    assert (Lp : length (map postselected (take a r)) = a).
    { rewrite length_map, length_take. lia. }
    cbn [seq for_each].
    rewrite (@postselect_step_spec σ0 results new_results r _ a e); auto.
    + cbn [rbind].
      replace (<[a := postselected e]> (map postselected (take a r) ++ drop a r))
        with (map postselected (take (S a) r) ++ drop (S a) r).
      * replace (a + S n)%nat with (S a + n)%nat by lia.
        apply IH; auto; [lia|]. intros j e' Hj. apply WF. lia.
      * rewrite (take_S_r r a e He), (drop_S r e a He).
        rewrite List.map_app. simpl. rewrite <- List.app_assoc. simpl.
        rewrite insert_app_r_alt by lia. rewrite Lp, Nat.sub_diag. reflexivity.
    + rewrite lookup_app_r by lia. rewrite Lp, Nat.sub_diag.
      rewrite lookup_drop. now rewrite Nat.add_0_r.
Qed.

Lemma for_each_app {A S} (xs ys : list A) (body : A -> S -> res S) s :
  for_each (xs ++ ys) body s = let* s' := for_each xs body s in for_each ys body s'.
Proof.
  revert s. induction xs as [|x xs IH]; intros s; [reflexivity|].
  cbn [for_each app]. destruct (body x s); cbn [rbind]; auto.
Qed.

(** X20: an experiment whose header has no classical register, after
    experiments that are well formed, makes postselection fail with an
    index error ([creg_sizes[0]] on an empty list). *)
Theorem tomo_postselect_no_classical_register (σ : gmap nat (list experiment))
    results pre e post :
  σ !! results = Some (pre ++ e :: post) ->
  Forall wf_experiment pre ->
  creg_sizes (exp_header e) = [] ->
  _tomo_postselect σ results = Raise IndexError.
Proof.
  intros Hr WF Hc. set (r := pre ++ e :: post) in *.
  set (l' := fresh (dom σ)).
  assert (F : σ !! l' = None) by (apply not_elem_of_dom, is_fresh).
  assert (Ne : results <> l') by (intros ->; congruence).
  assert (He : r !! length pre = Some e).
  { unfold r. rewrite lookup_app_r by lia. now rewrite Nat.sub_diag. }
  unfold _tomo_postselect, deepcopy, deref. rewrite Hr. cbn [rbind fst snd].
  fold l'. rewrite lookup_insert_ne by auto. rewrite Hr. cbn [rbind].
  assert (Lr : length r = (length pre + S (length post))%nat)
    by (unfold r; rewrite length_app; reflexivity).
  rewrite Lr, seq_app, for_each_app.
  assert (P := @postselect_rounds_prefix σ results l' r (length pre) 0%nat Ne Hr).
  rewrite take_0, drop_0 in P. cbn [map app] in P. rewrite P; clear P.
  - cbn [rbind seq for_each Nat.add].
    set (cur := map postselected (take (length pre) r) ++ drop (length pre) r).
    assert (Hcur : cur !! length pre = Some e).
    { unfold cur. rewrite lookup_app_r by (rewrite length_map, length_take; lia).
      rewrite length_map, length_take.
      replace (length pre - length pre `min` length r)%nat with 0%nat by lia.
      rewrite lookup_drop. now rewrite Nat.add_0_r. }
    unfold postselect_step at 1. unfold get_counts, update, deref.
    rewrite lookup_insert_ne by auto. rewrite Hr. cbn [rbind]. rewrite He. cbn [rbind].
    rewrite lookup_insert_eq. cbn [rbind]. rewrite Hcur, Hc. reflexivity.
  - lia.
  - intros j e' Hj Hl. rewrite List.Forall_forall in WF. apply WF.
    unfold r in Hl. rewrite lookup_app_l in Hl by lia.
    apply list_elem_of_In. eapply list_elem_of_lookup_2; eauto.
Qed.

Lemma tomo_postselect_no_classical_register_witness :
  _tomo_postselect store2 3%nat = Raise IndexError.
Proof.
  apply (@tomo_postselect_no_classical_register store2 3%nat
           [ {| exp_header := header1; exp_counts := table1 |} ]
           {| exp_header := header_empty; exp_counts := table1 |} []).
  - reflexivity.
  - constructor; [|constructor]. unfold wf_experiment. simpl.
    split; [discriminate|]. split.
    + repeat constructor.
      * exists "1"%char, "01"%string. repeat split. discriminate.
      * exists "0"%char, "01"%string. repeat split. discriminate.
      * exists "1"%char, "10"%string. repeat split. discriminate.
    + repeat constructor; simpl; intuition discriminate.
  - reflexivity.
Defined.

End TomoMore.
(** * More facts about the result extraction *)

Module RescaleMore.
Import Rescale Construct RescaleFacts.

Section RescaleMore.
Context {C : Type} {NC : Numeric C}.

Lemma firstn_rows_all (A : Type) n m (rs : list (list A)) :
  length rs <= n -> Forall (fun r => length r <= m) rs ->
  map (firstn m) (firstn n rs) = rs.
Proof.
  intros L F. rewrite (@firstn_all2 _ n rs L). clear L.
  induction F as [|r rs Hr _ IH]; simpl; [reflexivity|].
  rewrite IH. rewrite (@firstn_all2 _ m r Hr). reflexivity.
Qed.

(** Slicing beyond both axes returns the array. *)
Lemma slice2_all (a : ndarray C) n m :
  wf a -> shape0 a <= n -> shape1 a <= m -> slice2 a n m = a.
Proof.
  destruct a as [c rs]. unfold wf, shape0, slice2. simpl. intros W L0 L1.
  f_equal; [lia|]. apply firstn_rows_all; [exact L0|].
  eapply List.Forall_impl; [|exact W]. simpl. intros r Hr. lia.
Qed.

Lemma broadcast_to_same (a : ndarray C) :
  wf a -> broadcast_to a (shape0 a) (shape1 a) = Ok a.
Proof.
  intros W. unfold broadcast_to. rewrite !Nat.eqb_refl. simpl. f_equal.
  now apply mk_matrix_entry.
Qed.

Lemma resize_matrix_shape (self : HHL C) m :
  _resize_matrix self = Ok m ->
  shape0 m = _original_dimension self /\
  shape1 m = _original_dimension self /\ wf m.
Proof.
  unfold _resize_matrix, broadcast_to.
  destruct (_ && _); [|discriminate].
  intros E. inversion E; subst. split; [|split].
  - apply shape0_mk_matrix.
  - reflexivity.
  - apply wf_mk_matrix.
Qed.

(** X8: truncating twice is truncating once.  The truncated vector is left
    alone by a second truncation, and an instance that holds the truncated
    matrix returns that matrix, of the original dimension on both axes, when
    it truncates again. *)
Theorem truncation_idempotent (self : HHL C) (vec : list C) (m : ndarray C) :
  _resize_matrix self = Ok m ->
  _resize_vector self (_resize_vector self vec) = _resize_vector self vec /\
  _resize_matrix (with_matrix self m) = Ok m /\
  shape0 m = _original_dimension self /\
  shape1 m = _original_dimension self.
Proof.
  intros E. destruct (resize_matrix_shape self E) as (S0 & S1 & W).
  split; [|split; [|split]]; auto.
  - unfold _resize_vector. rewrite firstn_firstn. f_equal. lia.
  - unfold _resize_matrix, with_matrix. cbn [_matrix _original_dimension].
    rewrite slice2_all by (auto; lia).
    rewrite <- (broadcast_to_same W). now rewrite S0, S1.
Qed.

(** X9: an original dimension beyond the dimension [n] of the matrix, for
    [n] other than 1, makes the truncation of the matrix fail (numpy cannot
    broadcast the smaller block), and the rescaling with it. *)
Theorem resize_matrix_beyond_dimension (self : HHL C) n :
  square n (_matrix self) -> n < _original_dimension self -> n <> 1 ->
  _resize_matrix self = Raise BroadcastError /\
  forall vec ret, _hhl_results self vec ret = Raise BroadcastError.
Proof.
  intros (S0 & S1 & W) Lt N1.
  assert (E : _resize_matrix self = Raise BroadcastError).
  { unfold _resize_matrix. rewrite slice2_all by (auto; lia).
    unfold broadcast_to. rewrite S0.
    destruct (Nat.eqb_spec n (_original_dimension self)); [lia|].
    destruct (Nat.eqb_spec n 1); [lia|]. reflexivity. }
  split; [exact E|]. intros vec ret. unfold _hhl_results. now rewrite E.
Qed.

(** X10: a decoded vector shorter than the original dimension of a
    configured problem makes the rescaling fail at the matrix-vector
    product. *)
Theorem hhl_results_short_vector (self : HHL C) (vec : list C) (ret : Ret C) :
  configured self -> length vec < _original_dimension self ->
  _hhl_results self vec ret = Raise ShapeError.
Proof.
  intros (d & Sq & Lv & Le) Lt.
  destruct (resize_matrix_configured self Sq Le) as (Em & E0 & E1).
  unfold _hhl_results. rewrite Em. cbn [rbind]. unfold dot, _resize_vector.
  rewrite E1, length_firstn.
  destruct (Nat.eqb_spec (_original_dimension self)
              (Nat.min (_original_dimension self) (length vec))); [lia|reflexivity].
Qed.

(** X11: an instance built by the constructor without [orig_size] has
    original dimension 0: for every matrix, vector and decoded vector the
    rescaling returns an empty output and an empty solution, and the
    statevector strategy reports the real part of an empty sum as
    probability. *)
Theorem default_orig_size_empties (matrix : ndarray C) (vector vec sv : list C)
    (num_q : option nat) (ret : Ret C) (sv_to_resvec : list C -> nat -> list C) :
  let self := __init__ matrix vector num_q None in
  _hhl_results self vec ret =
    Ok {| probability_result := probability_result ret;
          output := Some []; solution := Some [] |} /\
  _statevector_simulation sv_to_resvec self sv ret =
    Ok {| probability_result := Some (np_real np_zero);
          output := Some []; solution := Some [] |}.
Proof.
  intros self. split; reflexivity.
Qed.

(** X12: the rescaling reads nothing outside the original dimension: two
    configured instances that agree on the top-left block of the matrix and
    on the first entries of the vector, with decoded vectors that agree on
    their first entries, get the same result. *)
Theorem hhl_results_reads_truncated_only (self self' : HHL C) (vec vec' : list C)
    (ret : Ret C) :
  configured self -> configured self' -> same_problem self self' ->
  _original_dimension self <= length vec ->
  _original_dimension self <= length vec' ->
  firstn (_original_dimension self) vec = firstn (_original_dimension self) vec' ->
  exists ret', _hhl_results self vec ret = Ok ret' /\
               _hhl_results self' vec' ret = Ok ret'.
Proof.
  intros Cf Cf' (Ed & Em & Ev) L L' Evec.
  destruct (hhl_results_configured vec ret Cf L) as (r & E & O & S & P).
  rewrite Ed in L'.
  destruct (hhl_results_configured vec' ret Cf' L') as (r' & E' & O' & S' & P').
  rewrite <- Ed, <- Em, <- Ev, <- Evec in *.
  exists r. split; [exact E|]. rewrite E'. f_equal.
  destruct r, r'. cbn in *. congruence.
Qed.

End RescaleMore.

Lemma truncation_idempotent_witness :
  _resize_vector sample_problem (_resize_vector sample_problem sample_decoded) =
    _resize_vector sample_problem sample_decoded /\
  _resize_matrix (with_matrix sample_problem (slice2 (_matrix sample_problem) 2 2)) =
    Ok (slice2 (_matrix sample_problem) 2 2) /\
  shape0 (slice2 (_matrix sample_problem) 2 2) = _original_dimension sample_problem /\
  shape1 (slice2 (_matrix sample_problem) 2 2) = _original_dimension sample_problem.
Proof.
  apply (@truncation_idempotent term _ sample_problem sample_decoded
           (slice2 (_matrix sample_problem) 2 2)).
  reflexivity.
Defined.

Lemma resize_matrix_beyond_dimension_witness :
  _resize_matrix sample_oversized = Raise BroadcastError /\
  forall vec ret, _hhl_results sample_oversized vec ret = Raise BroadcastError.
Proof.
  apply (@resize_matrix_beyond_dimension term _ sample_oversized 3).
  - unfold square, wf, shape0. simpl. repeat split; repeat constructor.
  - simpl. lia.
  - lia.
Defined.

Lemma hhl_results_short_vector_witness :
  _hhl_results sample_problem [Var "x"] empty_ret = Raise ShapeError.
Proof.
  apply (@hhl_results_short_vector term _ sample_problem [Var "x"] empty_ret).
  - exists 3. unfold square, wf, shape0. simpl.
    repeat split; try lia. repeat constructor.
  - simpl. lia.
Defined.

Lemma hhl_results_reads_truncated_only_witness :
  exists ret', _hhl_results sample_problem sample_decoded empty_ret = Ok ret' /\
               _hhl_results sample_problem' [Var "x"; Var "y"] empty_ret = Ok ret'.
Proof.
  apply (@hhl_results_reads_truncated_only term _ sample_problem sample_problem'
           sample_decoded [Var "x"; Var "y"] empty_ret).
  - exists 3. unfold square, wf, shape0. simpl.
    repeat split; try lia. repeat constructor.
  - exists 3. unfold square, wf, shape0. simpl.
    repeat split; try lia. repeat constructor.
  - unfold same_problem. simpl. auto.
  - simpl. lia.
  - simpl. lia.
  - reflexivity.
Defined.

End RescaleMore.

(** * [HHL.init_params] to its end *)

Module ConfigureFacts.
Import Pre PreInputs PreSteps MoreInputs PreFacts PreMore ArraysMore.

Section Engines.

Variables Eigenvalues InitialState Reciprocal : Type.
Variable eigs_init_params : ndarray complex -> res Eigenvalues.
Variable get_register_sizes : Eigenvalues -> nat * nat.
Variable init_state_init_params : nat -> list complex -> res InitialState.
Variable reciprocal_init_params :
  Eigenvalues -> nat -> list complex -> res Reciprocal.

Abbreviation engines :=
  (Configure.engines eigs_init_params get_register_sizes
     init_state_init_params reciprocal_init_params).
Abbreviation configure :=
  (Configure.init_params eigs_init_params get_register_sizes
     init_state_init_params reciprocal_init_params).

(** The instance carries the problem it was built from. *)
Lemma engines_problem h inst :
  engines h = Ok inst -> Configure.problem inst = h.
Proof.
  unfold Configure.engines.
  destruct (eigs_init_params (_matrix h)) as [e|]; [|discriminate]. cbn [rbind].
  destruct (init_state_init_params _ _) as [i|]; [|discriminate]. cbn [rbind].
  destruct (reciprocal_init_params _ _ _) as [r|]; [|discriminate]. cbn [rbind].
  intros E. injection E as <-. reflexivity.
Qed.

(** Once the checks of lines 154 and 157 pass, the expansions return and
    the checks of lines 196 and 198 pass, what [init_params] returns or
    raises is what the construction of the engines does on the expanded
    problem. *)
Lemma init_params_reaches_engines A b auto_hermitian auto_resize M v :
  shape0 A = length b -> shape0 A = shape1 A ->
  expand A b auto_hermitian auto_resize = Ok (M, v) ->
  revalidate M = Ok tt ->
  configure (Some {| matrix := A; vector := b |}) auto_hermitian auto_resize =
    engines {| _matrix := M; _vector := v;
               _auto_hermitian := auto_hermitian; _auto_resize := auto_resize;
               _original_dimension := length b |}.
Proof.
  intros L S E R. unfold Configure.init_params, Pre.init_params.
  cbn [matrix vector]. rewrite <- S, L, Nat.eqb_refl. cbn [negb].
  rewrite E. cbn [rbind]. rewrite R. reflexivity.
Qed.

(** ** No expansion needed *)

(** C8: for a Hermitian matrix whose dimension is a power of two, with a
    vector of that length, the expansions of lines 165-194 return the matrix
    and the vector unchanged under every setting of the two flags, and the
    checks of lines 196-199 pass.  [init_params] then does what the
    construction of the engines does on this matrix and this vector; when it
    returns, the instance holds them, with the vector's length as the
    original dimension. *)
Theorem init_params_noop A b auto_hermitian auto_resize :
  shape1 A = shape0 A ->
  length b = shape0 A ->
  allclose A (H A) = true ->
  log2_integral (shape0 A) = true ->
  expand A b auto_hermitian auto_resize = Ok (A, b) /\
  revalidate A = Ok tt /\
  configure (Some {| matrix := A; vector := b |}) auto_hermitian auto_resize =
    engines {| _matrix := A; _vector := b;
               _auto_hermitian := auto_hermitian; _auto_resize := auto_resize;
               _original_dimension := length b |} /\
  forall inst,
    configure (Some {| matrix := A; vector := b |}) auto_hermitian auto_resize = Ok inst ->
    _matrix (Configure.problem inst) = A /\
    _vector (Configure.problem inst) = b /\
    _original_dimension (Configure.problem inst) = length b.
Proof.
  intros S L Her P2.
  assert (E : expand A b auto_hermitian auto_resize = Ok (A, b)).
  { unfold expand. rewrite Her, P2. simpl. now rewrite !andb_false_r. }
  assert (R : revalidate A = Ok tt).
  { unfold revalidate. now rewrite Her, P2. }
  assert (F := @init_params_reaches_engines A b auto_hermitian auto_resize A b
                 (eq_sym L) (eq_sym S) E R).
  split; [exact E|]. split; [exact R|]. split; [exact F|].
  intros inst Hi. rewrite F in Hi. apply engines_problem in Hi.
  rewrite Hi. cbn. auto.
Qed.

(** ** Both flags *)

(** X4: with both flags set, for every square matrix with at least one row
    and a vector of its dimension the expansions return and the checks of
    lines 196-199 pass: neither the Hermitian nor the dimension error is
    raised.  [init_params] then does what the construction of the engines
    does on the expanded problem, whose original dimension is the length of
    the input vector. *)
Theorem both_flags_pass_validation inp :
  wf (matrix inp) ->
  shape0 (matrix inp) = length (vector inp) ->
  shape0 (matrix inp) = shape1 (matrix inp) ->
  0 < shape0 (matrix inp) ->
  exists M v,
    expand (matrix inp) (vector inp) true true = Ok (M, v) /\
    revalidate M = Ok tt /\
    configure (Some inp) true true =
      engines {| _matrix := M; _vector := v;
                 _auto_hermitian := true; _auto_resize := true;
                 _original_dimension := length (vector inp) |}.
Proof.
  intros W L Sq Pos.
  destruct (@expand_total (matrix inp) (vector inp) true true Pos) as (M & v & E).
  assert (R : revalidate M = Ok tt).
  { unfold revalidate.
    destruct (@expand_shapes _ _ _ _ _ _ W (eq_sym Sq) (eq_sym L) E)
      as (_ & _ & _ & _ & _ & Her).
    now rewrite (Her eq_refl), (@expand_power_of_two _ _ _ _ _ E). }
  exists M, v. split; [exact E|]. split; [exact R|].
  destruct inp as [A b]. cbn [matrix vector] in *.
  now apply init_params_reaches_engines.
Qed.

(** ** What each flag does when it applies *)

(** X6: for a square matrix outside the Hermitian tolerance, of a dimension
    [d] that is a power of two, with a vector [b] of length [d], and
    auto_hermitian set (auto_resize arbitrary), the expansions return and
    the checks of lines 196-199 pass; [init_params] then does what the
    construction of the engines does on the expanded problem.  The expanded
    matrix has dimension [2d], zero diagonal blocks and off-diagonal blocks
    that are conjugate transposes of each other; the expanded vector is
    [conj(b)] followed by [b]; the original dimension is [d].  Cut back to
    the original dimension, as lines 275 and 279 do, the matrix is the zero
    block and the vector is [conj(b)]. *)
Theorem auto_hermitian_passes_validation d A b auto_resize :
  square d A -> length b = d ->
  allclose A (H A) = false -> log2_integral d = true ->
  exists M v,
    expand A b true auto_resize = Ok (M, v) /\
    revalidate M = Ok tt /\
    configure (Some {| matrix := A; vector := b |}) true auto_resize =
      engines {| _matrix := M; _vector := v;
                 _auto_hermitian := true; _auto_resize := auto_resize;
                 _original_dimension := d |} /\
    square (2 * d) M /\
    block M 0 d 0 d = zeros d d /\
    block M d (2 * d) d (2 * d) = zeros d d /\
    block M d (2 * d) 0 d = H (block M 0 d d (2 * d)) /\
    v = map conj b ++ b /\
    slice2 M d d = zeros d d /\
    firstn d v = map conj b.
Proof.
  intros Sq L NH P2. assert (Sq' := Sq). destruct Sq' as (S0 & S1 & W).
  destruct (@expand_hermitian_layout d A b Sq L) as (SqM & B00 & B01 & B10 & B11 & V).
  assert (E : expand A b true auto_resize = Ok (expand_hermitian A b)).
  { rewrite expand_after_hermitian. unfold after_hermitian.
    rewrite NH, S0, P2. cbn [negb andb]. now rewrite andb_false_r. }
  assert (Her : allclose (fst (expand_hermitian A b)) (H (fst (expand_hermitian A b))) = true).
  { apply self_adjoint_allclose. now apply expand_hermitian_self_adjoint with (d := d). }
  assert (P4 : log2_integral (shape0 (fst (expand_hermitian A b))) = true).
  { rewrite expand_hermitian_shape0, S0, log2_integral_double. exact P2. }
  destruct (expand_hermitian A b) as [M v]. cbn [fst snd] in *.
  assert (R : revalidate M = Ok tt).
  { unfold revalidate. now rewrite Her, P4. }
  exists M, v. split; [exact E|]. split; [exact R|].
  split.
  { rewrite <- L. apply init_params_reaches_engines; auto; congruence. }
  repeat (split; [assumption || lia|]).
  split; [rewrite B10, B01; reflexivity|].
  split; [exact V|].
  destruct SqM as (M0 & M1 & WM). split.
  - rewrite slice2_block by (auto; lia). exact B00.
  - rewrite V, <- L, <- (length_map conj b). now rewrite firstn_app, Nat.sub_diag,
      firstn_all, firstn_0, app_nil_r.
Qed.

(** X7: for a square matrix within the Hermitian tolerance, of a dimension
    [d >= 1] that is not a power of two, with a vector [b] of [d] real
    entries, and auto_resize set (auto_hermitian arbitrary), the expansions
    return and the checks of lines 196-199 pass; [init_params] then does
    what the construction of the engines does on the expanded problem.  The
    expanded matrix is the identity of size [n], the least power of two not
    below [d], with the input as its top-left block; the expanded vector is
    [b] followed by [n - d] zeros; the original dimension is [d].  Cut back
    to the original dimension, as lines 275 and 279 do, the matrix and the
    vector are the inputs again. *)
Theorem auto_resize_passes_validation d A b auto_hermitian :
  square d A -> length b = d -> 0 < d ->
  allclose A (H A) = true -> log2_integral d = false ->
  Forall (fun z => im z = 0%Q) b ->
  let n := 2 ^ Nat.log2_up d in
  exists M v,
    expand A b auto_hermitian true = Ok (M, v) /\
    revalidate M = Ok tt /\
    configure (Some {| matrix := A; vector := b |}) auto_hermitian true =
      engines {| _matrix := M; _vector := v;
                 _auto_hermitian := auto_hermitian; _auto_resize := true;
                 _original_dimension := d |} /\
    d <= n /\ n < 2 * d /\
    square n M /\
    block M 0 d 0 d = A /\
    (forall i k, i < n -> k < n -> d <= i \/ d <= k ->
       entry M i k = if i =? k then one else zero) /\
    v = b ++ repeat zero (n - d) /\
    slice2 M d d = A /\
    firstn d v = b.
Proof.
  intros Sq L Pos Her NP Re n. assert (Sq' := Sq). destruct Sq' as (S0 & S1 & W).
  destruct (@resize_layout d A b Sq L Pos) as (M' & v' & R & SqM & B & I & V).
  fold n in SqM, I, V.
  destruct (@next_power_of_two d Pos) as [Lo Hi]. fold n in Lo, Hi.
  assert (E : expand A b auto_hermitian true = Ok (M', v')).
  { rewrite expand_after_hermitian. unfold after_hermitian.
    rewrite Her, S0, NP, andb_false_r. cbn [negb andb fst snd]. exact R. }
  assert (HerM : allclose M' (H M') = true).
  { eapply resize_keeps_allclose; eauto. congruence. }
  assert (PM : log2_integral (shape0 M') = true).
  { destruct SqM as (E0 & _). rewrite E0. apply log2_integral_pow2. }
  assert (Rv : revalidate M' = Ok tt).
  { unfold revalidate. now rewrite HerM, PM. }
  exists M', v'. split; [exact E|]. split; [exact Rv|].
  split.
  { rewrite <- L. apply init_params_reaches_engines; auto; congruence. }
  repeat (split; [assumption|]).
  assert (V' : v' = b ++ repeat zero (n - d)) by (rewrite V; now rewrite (to_float_real Re)).
  split; [exact V'|].
  destruct SqM as (M0 & M1 & WM). split.
  - rewrite slice2_block by (auto; lia). exact B.
  - rewrite V', <- L. now rewrite firstn_app, Nat.sub_diag, firstn_all, firstn_0, app_nil_r.
Qed.

End Engines.

(** ** The theorems above at the sample engines *)

Abbreviation sample_engines :=
  (Configure.engines Configure.sample_eigs_init_params Configure.sample_register_sizes
     Configure.sample_init_state_init_params Configure.sample_reciprocal_init_params).
Abbreviation sample_configure :=
  (Configure.init_params Configure.sample_eigs_init_params Configure.sample_register_sizes
     Configure.sample_init_state_init_params Configure.sample_reciprocal_init_params).

Lemma init_params_noop_witness :
  expand I2 b_2 true true = Ok (I2, b_2) /\
  revalidate I2 = Ok tt /\
  sample_configure (Some {| matrix := I2; vector := b_2 |}) true true =
    sample_engines {| _matrix := I2; _vector := b_2;
                      _auto_hermitian := true; _auto_resize := true;
                      _original_dimension := length b_2 |} /\
  forall inst,
    sample_configure (Some {| matrix := I2; vector := b_2 |}) true true = Ok inst ->
    _matrix (Configure.problem inst) = I2 /\
    _vector (Configure.problem inst) = b_2 /\
    _original_dimension (Configure.problem inst) = length b_2.
Proof.
  apply (@init_params_noop _ _ _ Configure.sample_eigs_init_params
           Configure.sample_register_sizes Configure.sample_init_state_init_params
           Configure.sample_reciprocal_init_params I2 b_2 true true);
    vm_compute; reflexivity.
Defined.

Lemma both_flags_pass_validation_witness :
  exists M v,
    expand A3_nh b_3j true true = Ok (M, v) /\
    revalidate M = Ok tt /\
    sample_configure (Some {| matrix := A3_nh; vector := b_3j |}) true true =
      sample_engines {| _matrix := M; _vector := v;
                        _auto_hermitian := true; _auto_resize := true;
                        _original_dimension := length b_3j |}.
Proof.
  apply (@both_flags_pass_validation _ _ _ Configure.sample_eigs_init_params
           Configure.sample_register_sizes Configure.sample_init_state_init_params
           Configure.sample_reciprocal_init_params
           {| matrix := A3_nh; vector := b_3j |}).
  - repeat constructor.
  - reflexivity.
  - reflexivity.
  - unfold shape0. simpl. lia.
Defined.

Lemma auto_hermitian_passes_validation_witness :
  exists M v,
    expand A_nh b_nh true true = Ok (M, v) /\
    revalidate M = Ok tt /\
    sample_configure (Some {| matrix := A_nh; vector := b_nh |}) true true =
      sample_engines {| _matrix := M; _vector := v;
                        _auto_hermitian := true; _auto_resize := true;
                        _original_dimension := 2 |} /\
    square (2 * 2) M /\
    block M 0 2 0 2 = zeros 2 2 /\
    block M 2 (2 * 2) 2 (2 * 2) = zeros 2 2 /\
    block M 2 (2 * 2) 0 2 = H (block M 0 2 2 (2 * 2)) /\
    v = map conj b_nh ++ b_nh /\
    slice2 M 2 2 = zeros 2 2 /\
    firstn 2 v = map conj b_nh.
Proof.
  apply (@auto_hermitian_passes_validation _ _ _ Configure.sample_eigs_init_params
           Configure.sample_register_sizes Configure.sample_init_state_init_params
           Configure.sample_reciprocal_init_params 2 A_nh b_nh true).
  - unfold square, wf. simpl. repeat split; repeat constructor.
  - reflexivity.
  - vm_compute. reflexivity.
  - reflexivity.
Defined.

Lemma auto_resize_passes_validation_witness :
  exists M v,
    expand I3 b_3 true true = Ok (M, v) /\
    revalidate M = Ok tt /\
    sample_configure (Some {| matrix := I3; vector := b_3 |}) true true =
      sample_engines {| _matrix := M; _vector := v;
                        _auto_hermitian := true; _auto_resize := true;
                        _original_dimension := 3 |} /\
    3 <= 2 ^ Nat.log2_up 3 /\ 2 ^ Nat.log2_up 3 < 2 * 3 /\
    square (2 ^ Nat.log2_up 3) M /\
    block M 0 3 0 3 = I3 /\
    (forall i k, i < 2 ^ Nat.log2_up 3 -> k < 2 ^ Nat.log2_up 3 -> 3 <= i \/ 3 <= k ->
       entry M i k = if i =? k then one else zero) /\
    v = b_3 ++ repeat zero (2 ^ Nat.log2_up 3 - 3) /\
    slice2 M 3 3 = I3 /\
    firstn 3 v = b_3.
Proof.
  apply (@auto_resize_passes_validation _ _ _ Configure.sample_eigs_init_params
           Configure.sample_register_sizes Configure.sample_init_state_init_params
           Configure.sample_reciprocal_init_params 3 I3 b_3 true).
  - unfold square, wf. simpl. repeat split; repeat constructor.
  - reflexivity.
  - lia.
  - vm_compute. reflexivity.
  - reflexivity.
  - repeat constructor.
Defined.

(** The construction of the engines can raise after the checks of lines
    196-199 have passed: the sample eigenvalue engine refuses the zero
    matrix, which is Hermitian and of dimension 2. *)
Lemma engines_can_raise :
  Pre.init_params (Some {| matrix := zeros 2 2; vector := b_2 |}) false false =
    Ok {| _matrix := zeros 2 2; _vector := b_2;
          _auto_hermitian := false; _auto_resize := false;
          _original_dimension := 2 |} /\
  sample_configure (Some {| matrix := zeros 2 2; vector := b_2 |}) false false =
    Raise PluggableError.
Proof. split; vm_compute; reflexivity. Qed.

End ConfigureFacts.
